(** * Random walk generation: a shallow embedding of [randomwalk.py] and [use.py]

    The development follows the two source files.

    - [RandomWalk] (randomwalk.py) stores a step count and the array of
      admissible step values, and builds one walk per call from two bulk
      random draws.
    - [use_randomwalk] (use.py) is a Python generator function: nothing of its
      body runs before the first [next]; each [next] runs the body up to the
      following [yield].

    Modelling decisions.

    - Python integers are [Z].  NumPy stores the walk in arrays of signed
      64-bit integers: [np.cumsum] adds modulo [2^64], [np.arange] computes
      the length of its result in double precision and converts it to a
      64-bit integer, [np.random.choice] refuses a sample count above
      [2^63 - 1], and the length of a [range] of more than [2^63 - 1] items
      cannot be taken.  All four are modelled.
    - Whether an array can be allocated depends on the machine.  Allocation
      failures are outside the model, and the theorems that promise a walk
      speak of step counts and magnitudes below [max_length].
    - The step count and the maximal magnitude are taken within 64 bits;
      beyond, NumPy changes the type of its arrays and the model does not
      follow it.
    - The process-wide random source [np.random] is an arbitrary function
      [nat -> nat] read at an advancing cursor: one cell per drawn sample.
      Every theorem quantifies over the source, hence over every outcome of
      the draws.
    - Effects are recorded in a chronological [trace]: every sample drawn,
      every [RandomWalk] object constructed, and the calls made on the
      progress bar ([tqdm]): its creation, which displays the bar at
      [0/total], the advance of its counter when the consumer asks for the
      next item, and its closing, when the range is exhausted or when an
      exception leaves the loop.  The time-based throttling of the bar's
      redraws is not modelled.
    - A Python exception is the [inl] branch of the result.
    - Type annotations and docstrings are not part of the model. *)

From Stdlib Require Import ZArith List Bool Lia PeanoNat.
Import ListNotations.
Local Open Scope Z_scope.

(** ** Exceptions, events and the world *)

(** The ways [np.random.choice] raises [ValueError]. *)
Inductive value_error : Type :=
| EmptyPopulation      (* 'a' cannot be empty unless no samples are taken *)
| NegativeDimensions   (* negative dimensions are not allowed *)
| DimensionExceeded.   (* maximum allowed dimension exceeded *)

Inductive exn : Type :=
| ValueError (why : value_error)
| OverflowError.       (* Python int too large to convert to C ssize_t *)

Inductive event : Type :=
| Constructed (steps size : Z)   (* rw.RandomWalk(steps, size) returned *)
| EntropyDraw                    (* one sample taken from np.random *)
| ProgressOpen (total : nat)     (* tqdm(...) created, bar shown at 0/total *)
| ProgressAdvance (n : nat)      (* tqdm counter advanced to n *)
| ProgressClose.                 (* tqdm closed *)

Record world : Type := mkWorld {
  source : nat -> nat;
  cursor : nat;
  trace : list event
}.

(** ** A state and exception monad *)

Definition M (A : Type) : Type := world -> (exn + A) * world.

Definition ret {A} (a : A) : M A := fun w => (inr a, w).

Definition bind {A B} (c : M A) (k : A -> M B) : M B :=
  fun w =>
    match c w with
    | (inl e, w') => (inl e, w')
    | (inr a, w') => k a w'
    end.

Definition raise {A} (e : exn) : M A := fun w => (inl e, w).

(** [c], with [h] run on the way out when [c] raises; the exception goes
    on. *)
Definition on_raise {A} (c : M A) (h : M unit) : M A :=
  fun w =>
    match c w with
    | (inl e, w') => (inl e, snd (h w'))
    | (inr a, w') => (inr a, w')
    end.

Notation "x <- c ;; k" := (bind c (fun x => k))
  (at level 61, c at next level, right associativity).
Notation "c ;;; k" := (bind c (fun _ => k))
  (at level 61, right associativity).

Definition emit (e : event) : M unit :=
  fun w => (inr tt, mkWorld (source w) (cursor w) (trace w ++ [e])).

(** One uniform sample from [0, n): the next cell of the source, reduced. *)
Definition draw (n : nat) : M nat :=
  fun w =>
    (inr (Nat.modulo (source w (cursor w)) n),
     mkWorld (source w) (S (cursor w)) (trace w ++ [EntropyDraw])).

(** ** Machine integers *)

(** [2^63 - 1], the largest signed 64-bit integer, array dimension and
    [ssize_t]. *)
Definition int64_max : Z := 9223372036854775807.

(** The value of an integer sum in a signed 64-bit array entry. *)
Definition wrap64 (v : Z) : Z :=
  (v + 9223372036854775808) mod 18446744073709551616 - 9223372036854775808.

(** [2^63 - 512], the least length that double precision rounds to [2^63]. *)
Definition arange_limit : Z := 9223372036854775296.

(** [2^53]: up to this length [np.arange] computes lengths exactly.  The
    theorems that promise a walk take step counts and magnitudes below it. *)
Definition max_length : Z := 9007199254740992.

(** ** The NumPy operations used by the source *)

(** [np.arange(start, stop, 1)] for integers that fit 64 bits.  The length
    [stop - start] goes through a double: from [arange_limit] on it rounds to
    [2^63], whose conversion to a 64-bit integer is negative, and the result
    is the empty array.  Allocation is not modelled: NumPy refuses a length
    of [2^60] or more on every machine, and a smaller one when memory is
    short. *)
Definition np_arange (start stop : Z) : list Z :=
  let len := stop - start in
  if len <? arange_limit
  then map (fun i => start + Z.of_nat i) (seq 0 (Z.to_nat len))
  else [].

Definition np_concatenate (a b : list Z) : list Z := a ++ b.

(** [k] samples with replacement from the non-empty array [a]. *)
Fixpoint sample (a : list Z) (k : nat) : M (list Z) :=
  match k with
  | O => ret []
  | S k' =>
      i <- draw (length a) ;;
      rest <- sample a k' ;;
      ret (nth i a 0 :: rest)
  end.

(** [np.random.choice(a, size=size)] for a one-dimensional [a] and an integer
    [size]: the population check comes first, then the shape of the result
    is checked, then the draws are made.  A sample count above [int64_max]
    is no array dimension; allocation below that is not modelled. *)
Definition np_random_choice (a : list Z) (size : Z) : M (list Z) :=
  if (Nat.eqb (length a) 0) && negb (size =? 0) then
    raise (ValueError EmptyPopulation)
  else if size <? 0 then
    raise (ValueError NegativeDimensions)
  else if int64_max <? size then
    raise (ValueError DimensionExceeded)
  else sample a (Z.to_nat size).

(** [a == v], elementwise. *)
Definition np_equal (a : list Z) (v : Z) : list bool :=
  map (fun d => d =? v) a.

(** [np.where(c, x, y)] with an array [x] of the shape of [c] and a scalar
    [y]. *)
Fixpoint np_where (c : list bool) (x : list Z) (y : Z) : list Z :=
  match c, x with
  | b :: c', v :: x' => (if b then v else y) :: np_where c' x' y
  | _, _ => []
  end.

Fixpoint cumsum_from (acc : Z) (a : list Z) : list Z :=
  match a with
  | [] => []
  | v :: a' => wrap64 (acc + v) :: cumsum_from (wrap64 (acc + v)) a'
  end.

(** [np.cumsum(a)] on an array of 64-bit integers: every partial sum is
    taken modulo [2^64]. *)
Definition np_cumsum (a : list Z) : list Z := cumsum_from 0 a.

(** [np.insert(a, i, v)] for an index [0 <= i <= len(a)]. *)
Definition np_insert (a : list Z) (i : nat) (v : Z) : list Z :=
  firstn i a ++ v :: skipn i a.

(** ** randomwalk.py *)

Module RandomWalk.

Record t : Type := mk {
  steps : Z;
  step_values : list Z
}.

Definition __init__ (steps size : Z) : M t :=
  let self_steps := steps in
  let self_step_values :=
    np_concatenate (np_arange (- size) 0) (np_arange 1 (size + 1)) in
  let self := mk self_steps self_step_values in
  emit (Constructed steps size) ;;;
  ret self.

(** The method returns the object it ran on next to its result, so that a
    write to [self] would be visible; the source has none. *)
Definition __call__ (self : t) : M (t * (list Z * list Z)) :=
  directions <- np_random_choice [0; 1] (steps self) ;;
  steps <- np_random_choice (step_values self) (steps self) ;;
  let x_steps := np_where (np_equal directions 0) steps 0 in
  let y_steps := np_where (np_equal directions 1) steps 0 in
  let x_values := np_cumsum x_steps in
  let y_values := np_cumsum y_steps in
  ret (self, (np_insert x_values 0 0, np_insert y_values 0 0)).

End RandomWalk.

(** ** use.py *)

(** The namedtuple [Result]. *)
Record Result : Type := mkResult {
  x_coords : list Z;
  y_coords : list Z
}.

(** The iterator of [range(stop)]. *)
Record range_iter : Type := mkRange {
  range_pos : Z;
  range_stop : Z
}.

Definition range (stop : Z) : range_iter := mkRange 0 stop.

(** [len(range(stop))], taken on a fresh range. *)
Definition range_len (r : range_iter) : nat :=
  Z.to_nat (range_stop r - range_pos r).

Definition range_next (r : range_iter) : option (Z * range_iter) :=
  if range_pos r <? range_stop r
  then Some (range_pos r, mkRange (range_pos r + 1) (range_stop r))
  else None.

(** The progress bar wrapped around the range.  [bar_resumed] tells whether
    the bar's iteration is suspended after handing out an item. *)
Record tqdm : Type := mkTqdm {
  bar_iterable : range_iter;
  bar_total : nat;
  bar_n : nat;
  bar_resumed : bool
}.

(** [tqdm.tqdm(iterable, desc=..., unit=..., colour=...)]: the total is the
    length of the iterable and the bar is displayed at once.  Taking the
    length of a range of more than [int64_max] items raises, and then there
    is no bar. *)
Definition tqdm_new (iterable : range_iter) : M tqdm :=
  if int64_max <? range_stop iterable - range_pos iterable then
    raise OverflowError
  else
    let total := range_len iterable in
    emit (ProgressOpen total) ;;;
    ret (mkTqdm iterable total 0 false).

(** One step of iterating over the bar: when resumed after an item the
    counter advances; then the next item of the range is handed out, or the
    bar is closed when there is none. *)
Definition tqdm_next (bar : tqdm) : M (option Z * tqdm) :=
  bar1 <- (if bar_resumed bar
           then emit (ProgressAdvance (S (bar_n bar))) ;;;
                ret (mkTqdm (bar_iterable bar) (bar_total bar)
                            (S (bar_n bar)) true)
           else ret bar) ;;
  match range_next (bar_iterable bar1) with
  | Some (obj, it') =>
      ret (Some obj, mkTqdm it' (bar_total bar1) (bar_n bar1) true)
  | None =>
      emit ProgressClose ;;;
      ret (None, bar1)
  end.

(** The states of the generator object returned by [use_randomwalk]. *)
Inductive generator : Type :=
| Created (total_walks walk_step size : Z)        (* body not started *)
| Suspended (randomwalk : RandomWalk.t) (bar : tqdm)  (* stopped at yield *)
| Finished.                                       (* returned or raised *)

(** Calling the generator function only creates the generator object. *)
Definition use_randomwalk (total_walks walk_step size : Z) : generator :=
  Created total_walks walk_step size.

(** The [for] loop of the body, from its head to the next [yield] or to the
    end of the body.  When the call raises, the frame of the generator is
    unwound: the iterator of the bar, suspended in the [for] statement, is
    finalised, and its [finally] clause closes the bar before the exception
    reaches the caller. *)
Definition loop (randomwalk : RandomWalk.t) (bar : tqdm)
  : M (option Result * generator) :=
  ob <- tqdm_next bar ;;
  match fst ob with
  | Some _ =>
      r <- on_raise (RandomWalk.__call__ randomwalk) (emit ProgressClose) ;;
      ret (Some (mkResult (fst (snd r)) (snd (snd r))),
           Suspended (fst r) (snd ob))
  | None => ret (None, Finished)
  end.

(** The body of [use_randomwalk], run from the point where [g] stands. *)
Definition resume (g : generator) : M (option Result * generator) :=
  match g with
  | Created total_walks walk_step size =>
      randomwalk <- RandomWalk.__init__ walk_step size ;;
      bar <- tqdm_new (range total_walks) ;;
      loop randomwalk bar
  | Suspended randomwalk bar => loop randomwalk bar
  | Finished => ret (None, Finished)
  end.

(** What a call of [next] on a generator gives its caller. *)
Inductive signal : Type :=
| Yield (r : Result)
| StopIteration
| Raise (e : exn).

(** [next(g)]: an exception that leaves the body finishes the generator. *)
Definition next (g : generator) (w : world) : signal * generator * world :=
  match resume g w with
  | (inr (Some r, g'), w') => (Yield r, g', w')
  | (inr (None, _), w') => (StopIteration, Finished, w')
  | (inl e, w') => (Raise e, Finished, w')
  end.

(** [n] calls of [next] in a row, whatever they give. *)
Fixpoint pulls (n : nat) (g : generator) (w : world)
  : list signal * generator * world :=
  match n with
  | O => ([], g, w)
  | S n' =>
      let '(s, g1, w1) := next g w in
      let '(ss, g2, w2) := pulls n' g1 w1 in
      (s :: ss, g2, w2)
  end.

(** How the consumption of a generator ends. *)
Inductive ending : Type :=
| Exhausted
| Failed (e : exn)
| OutOfFuel.

(** A consumer such as [for walk in use_randomwalk(...)]: it pulls until the
    generator stops or raises, and collects what was yielded. *)
Fixpoint consume (fuel : nat) (g : generator) (w : world)
  : list Result * ending * world :=
  match fuel with
  | O => ([], OutOfFuel, w)
  | S fuel' =>
      match next g w with
      | (Yield r, g', w') =>
          let '(rs, e, w'') := consume fuel' g' w' in (r :: rs, e, w'')
      | (StopIteration, _, w') => ([], Exhausted, w')
      | (Raise e, _, w') => ([], Failed e, w')
      end
  end.

(** [n] calls in a row on one [RandomWalk] object, as the batch makes them,
    without the progress bar. *)
Fixpoint generate (n : nat) (self : RandomWalk.t) : M (list Result) :=
  match n with
  | O => ret []
  | S n' =>
      r <- RandomWalk.__call__ self ;;
      rs <- generate n' (fst r) ;;
      ret (mkResult (fst (snd r)) (snd (snd r)) :: rs)
  end.

(** A world whose source counts: cell [i] holds [i]. *)
Definition counting_world : world := mkWorld (fun i => i) 0 [].

(** A world whose source always answers 0. *)
Definition zero_world : world := mkWorld (fun _ => O) 0 [].

(** The integers a signed 64-bit array entry can hold. *)
Definition in_int64 (v : Z) : Prop := - int64_max - 1 <= v <= int64_max.

(** The world after [k] samples have been drawn. *)
Definition advance (w : world) (k : nat) : world :=
  mkWorld (source w) (cursor w + k) (trace w ++ repeat EntropyDraw k).

(** Sum of a list of integers. *)
Definition zsum (a : list Z) : Z := fold_right Z.add 0 a.

(** The per-step change of a coordinate sequence at step [i >= 1]. *)
Definition delta (a : list Z) (i : nat) : Z :=
  nth i a 0 - nth (i - 1) a 0.

(** The contribution of every step to one axis, after the description of
    the walk: the drawn magnitude where the step chose this axis, zero where
    it chose the other. *)
Definition step_contribution (axis : Z) (directions magnitudes : list Z)
  : list Z :=
  map (fun dm => if fst dm =? axis then snd dm else 0)
      (combine directions magnitudes).

(** Two worlds that will answer the same draws. *)
Definition same_entropy (w1 w2 : world) : Prop :=
  source w1 = source w2 /\ cursor w1 = cursor w2.



(** A computation whose result depends on the world through the random
    source only, and which leaves worlds that answer the same draws. *)
Definition entropy_only {A} (c : M A) : Prop :=
  forall w1 w2, same_entropy w1 w2 ->
    fst (c w1) = fst (c w2) /\ same_entropy (snd (c w1)) (snd (c w2)).

(** A computation that leaves the source alone and draws nothing. *)
Definition drawless {A} (c : M A) : Prop :=
  forall w, same_entropy (snd (c w)) w.



Definition is_progress (e : event) : bool :=
  match e with
  | ProgressOpen _ | ProgressAdvance _ | ProgressClose => true
  | _ => false
  end.

(** What the progress bar was told, in order. *)
Definition progress_events (t : list event) : list event :=
  filter is_progress t.

(** The walk of a generator with no step: the origin alone. *)
Definition origin_walk : Result := mkResult [0] [0].

(** The world after the events [es] have been recorded. *)
Definition tell (w : world) (es : list event) : world :=
  mkWorld (source w) (cursor w) (trace w ++ es).

(** The first coordinate pair and the lengths of a walk of [steps] steps. *)
Definition well_shaped (steps : Z) (r : Result) : Prop :=
  length (x_coords r) = Z.to_nat (steps + 1)
  /\ length (y_coords r) = Z.to_nat (steps + 1)
  /\ nth 0 (x_coords r) 0 = 0
  /\ nth 0 (y_coords r) 0 = 0.

(** * Properties of the NumPy operations *)

Ltac machine_bounds :=
  unfold in_int64, int64_max, arange_limit, max_length in *.

Section Machine.

Lemma wrap64_in_int64 (v : Z) : in_int64 (wrap64 v).
Proof.
  unfold wrap64. machine_bounds.
  pose proof (Z.mod_pos_bound (v + 9223372036854775808)
                18446744073709551616 ltac:(lia)).
  lia.
Qed.

Lemma wrap64_small (v : Z) : in_int64 v -> wrap64 v = v.
Proof.
  unfold wrap64. machine_bounds. intros Hv.
  rewrite Z.mod_small by lia. lia.
Qed.

(** The stored sum differs from the true one by a multiple of [2^64]. *)
Lemma wrap64_shift (v : Z) :
  exists k : Z, wrap64 v = v - 18446744073709551616 * k.
Proof.
  exists ((v + 9223372036854775808) / 18446744073709551616).
  unfold wrap64.
  pose proof (Z.div_mod (v + 9223372036854775808) 18446744073709551616
                ltac:(lia)).
  lia.
Qed.

(** Wrapping never takes a value further from zero. *)
Lemma wrap64_abs (v : Z) : Z.abs (wrap64 v) <= Z.abs v.
Proof.
  pose proof (wrap64_in_int64 v) as Hr.
  destruct (Z_le_dec (- int64_max - 1) v) as [Hlo|Hlo];
    [destruct (Z_le_dec v int64_max) as [Hhi|Hhi]|].
  - rewrite wrap64_small by (split; assumption). lia.
  - machine_bounds. lia.
  - machine_bounds. lia.
Qed.

End Machine.

Section Arrays.

Lemma in_np_arange_bounds (start stop v : Z) :
  In v (np_arange start stop) -> start <= v < stop /\ stop - start < arange_limit.
Proof.
  unfold np_arange.
  destruct (Z.ltb_spec (stop - start) arange_limit) as [Hlen|Hlen];
    [|intros []].
  rewrite in_map_iff. intros [i [<- Hi]]. apply in_seq in Hi. lia.
Qed.

Lemma in_np_arange (start stop v : Z) :
  stop - start < arange_limit ->
  In v (np_arange start stop) <-> start <= v < stop.
Proof.
  intros Hlen. split; [intros H; now apply in_np_arange_bounds in H|].
  intros Hv. unfold np_arange.
  apply Z.ltb_lt in Hlen. rewrite Hlen. apply in_map_iff.
  exists (Z.to_nat (v - start)). split; [lia|].
  apply in_seq. lia.
Qed.

Lemma length_np_arange (start stop : Z) :
  stop - start < arange_limit ->
  length (np_arange start stop) = Z.to_nat (stop - start).
Proof.
  intros Hlen. unfold np_arange. apply Z.ltb_lt in Hlen. rewrite Hlen.
  now rewrite length_map, length_seq.
Qed.

(** From [arange_limit] on the array comes back empty. *)
Lemma np_arange_overflow (start stop : Z) :
  arange_limit <= stop - start -> np_arange start stop = [].
Proof.
  intros Hlen. unfold np_arange. apply Z.ltb_ge in Hlen. now rewrite Hlen.
Qed.

Lemma length_cumsum_from (a : list Z) :
  forall acc, length (cumsum_from acc a) = length a.
Proof.
  induction a as [|v a IH]; intros acc; simpl; [|rewrite IH]; reflexivity.
Qed.

(** Each entry of the running sum is the stored sum of the entry before it
    and of the summand. *)
Lemma nth_succ_cumsum_from (a : list Z) :
  forall acc i, (i < length a)%nat ->
    nth (S i) (acc :: cumsum_from acc a) 0
    = wrap64 (nth i (acc :: cumsum_from acc a) 0 + nth i a 0).
Proof.
  induction a as [|v a IH]; intros acc i Hi; simpl in Hi; [lia|].
  destruct i as [|i]; [reflexivity|].
  change (nth (S (S i)) (acc :: cumsum_from acc (v :: a)) 0)
    with (nth (S i) (wrap64 (acc + v)
                     :: cumsum_from (wrap64 (acc + v)) a) 0).
  change (nth (S i) (acc :: cumsum_from acc (v :: a)) 0)
    with (nth i (wrap64 (acc + v) :: cumsum_from (wrap64 (acc + v)) a) 0).
  rewrite IH by lia. reflexivity.
Qed.

(** The running sum of 64-bit entries holds 64-bit entries. *)
Lemma nth_cumsum_in_int64 (a : list Z) :
  forall acc i, in_int64 acc ->
    in_int64 (nth i (acc :: cumsum_from acc a) 0).
Proof.
  induction a as [|v a IH]; intros acc i Hacc.
  - destruct i as [|[|i]]; simpl; try exact Hacc; machine_bounds; lia.
  - destruct i as [|i]; [exact Hacc|].
    change (nth (S i) (acc :: cumsum_from acc (v :: a)) 0)
      with (nth i (wrap64 (acc + v) :: cumsum_from (wrap64 (acc + v)) a) 0).
    apply IH. apply wrap64_in_int64.
Qed.

(** While the sums stay within 64 bits, each entry of the running sum is the
    sum of a prefix. *)
Lemma nth_cumsum_exact (bound : Z) (a : list Z) :
  forall acc i,
    Forall (fun v => Z.abs v <= bound) a ->
    (i <= length a)%nat ->
    Z.abs acc + Z.of_nat i * bound <= int64_max ->
    nth i (acc :: cumsum_from acc a) 0 = acc + zsum (firstn i a).
Proof.
  induction a as [|v a IH]; intros acc i Ha Hi Hfit.
  - simpl in Hi. assert (i = O) by lia. subst. simpl. lia.
  - destruct i as [|i]; [simpl; lia|].
    simpl in Hi. inversion Ha as [|? ? Hv Ha']. subst.
    change (nth (S i) (acc :: cumsum_from acc (v :: a)) 0)
      with (nth i (wrap64 (acc + v) :: cumsum_from (wrap64 (acc + v)) a) 0).
    rewrite Nat2Z.inj_succ, Z.mul_succ_l in Hfit.
    assert (Hb : 0 <= bound) by lia.
    assert (Hib : 0 <= Z.of_nat i * bound) by (apply Z.mul_nonneg_nonneg; lia).
    rewrite wrap64_small by (machine_bounds; lia).
    rewrite IH by (try assumption; lia).
    simpl. lia.
Qed.

Lemma length_np_where (d : list Z) :
  forall (m : list Z) (v : Z), length m = length d ->
    length (np_where (np_equal d v) m 0) = length d.
Proof.
  induction d as [|d0 d IH]; intros [|m0 m] v Hlen; simpl in *;
    try reflexivity; try discriminate.
  f_equal. apply IH. lia.
Qed.

Lemma nth_np_where (d : list Z) :
  forall (m : list Z) (v : Z) (i : nat),
    length m = length d -> (i < length d)%nat ->
    nth i (np_where (np_equal d v) m 0) 0
    = if nth i d 0 =? v then nth i m 0 else 0.
Proof.
  induction d as [|d0 d IH]; intros [|m0 m] v i Hlen Hi; simpl in *;
    try lia.
  destruct i as [|i]; [reflexivity|].
  apply IH; lia.
Qed.

Lemma np_insert_front (a : list Z) (v : Z) : np_insert a 0 v = v :: a.
Proof. reflexivity. Qed.

End Arrays.

(** * Properties of the random draws *)

Section Draws.

Lemma advance_0 (w : world) : advance w 0 = w.
Proof.
  destruct w as [s c t]. unfold advance. simpl.
  now rewrite Nat.add_0_r, app_nil_r.
Qed.

Lemma advance_advance (w : world) (j k : nat) :
  advance (advance w j) k = advance w (j + k).
Proof.
  unfold advance. simpl.
  now rewrite repeat_app, app_assoc, Nat.add_assoc.
Qed.

Lemma draw_advance (n : nat) (w : world) :
  snd (draw n w) = advance w 1.
Proof. unfold draw, advance. simpl. now rewrite Nat.add_1_r. Qed.

(** Sampling [k] times from a non-empty array never raises, gives [k]
    members of the array and consumes [k] cells of the source. *)
Lemma sample_spec (a : list Z) (k : nat) :
  forall w, a <> [] \/ k = O ->
    exists l, sample a k w = (inr l, advance w k)
              /\ length l = k /\ Forall (fun v => In v a) l.
Proof.
  induction k as [|k IH]; intros w Ha.
  - exists []. simpl. unfold ret. rewrite advance_0. auto.
  - destruct Ha as [Ha|Ha]; [|discriminate].
    destruct (IH (advance w 1) (or_introl Ha)) as (l & Hl & Hlen & Hin).
    exists (nth (Nat.modulo (source w (cursor w)) (length a)) a 0 :: l).
    split; [|split].
    + cbn [sample]. unfold bind at 1.
      change (draw (length a) w)
        with (@inr exn nat (Nat.modulo (source w (cursor w)) (length a)),
              mkWorld (source w) (S (cursor w)) (trace w ++ [EntropyDraw])).
      cbv beta iota.
      replace (mkWorld (source w) (S (cursor w)) (trace w ++ [EntropyDraw]))
        with (advance w 1)
        by (unfold advance; simpl; now rewrite Nat.add_1_r).
      unfold bind. rewrite Hl. unfold ret.
      now rewrite advance_advance.
    + simpl. now rewrite Hlen.
    + constructor; [|exact Hin].
      apply nth_In. apply Nat.mod_upper_bound.
      destruct a; [congruence|simpl; lia].
Qed.

Lemma choice_ok (a : list Z) (size : Z) (w : world) :
  0 <= size <= int64_max -> a <> [] \/ size = 0 ->
  exists l, np_random_choice a size w = (inr l, advance w (Z.to_nat size))
            /\ length l = Z.to_nat size /\ Forall (fun v => In v a) l.
Proof.
  intros Hsize Ha. unfold np_random_choice.
  assert (Hguard : Nat.eqb (length a) 0 && negb (size =? 0) = false).
  { destruct Ha as [Ha|Ha].
    - destruct a; [congruence|reflexivity].
    - subst. simpl. now rewrite andb_false_r. }
  rewrite Hguard.
  assert (Hneg : (size <? 0) = false) by lia. rewrite Hneg.
  assert (Hbig : (int64_max <? size) = false) by lia. rewrite Hbig.
  apply sample_spec. destruct Ha as [Ha|Ha]; [now left|right; lia].
Qed.

Lemma choice_empty (size : Z) (w : world) :
  size <> 0 ->
  np_random_choice [] size w = (inl (ValueError EmptyPopulation), w).
Proof.
  intros Hsize. unfold np_random_choice. simpl.
  assert (H : (size =? 0) = false) by lia. now rewrite H.
Qed.

Lemma choice_negative (a : list Z) (size : Z) (w : world) :
  a <> [] -> size < 0 ->
  np_random_choice a size w = (inl (ValueError NegativeDimensions), w).
Proof.
  intros Ha Hsize. unfold np_random_choice.
  destruct a as [|v a]; [congruence|]. simpl.
  assert (H : (size <? 0) = true) by lia. now rewrite H.
Qed.

Lemma choice_too_big (a : list Z) (size : Z) (w : world) :
  a <> [] -> int64_max < size ->
  np_random_choice a size w = (inl (ValueError DimensionExceeded), w).
Proof.
  intros Ha Hsize. unfold np_random_choice.
  destruct a as [|v a]; [congruence|]. simpl.
  assert (H : (size <? 0) = false) by (machine_bounds; lia). rewrite H.
  assert (H' : (int64_max <? size) = true) by lia. now rewrite H'.
Qed.

(** A successful choice: how many samples were asked and from what. *)
Lemma choice_inv (a : list Z) (size : Z) (w w' : world) (l : list Z) :
  np_random_choice a size w = (inr l, w') ->
  0 <= size <= int64_max /\ (a <> [] \/ size = 0).
Proof.
  intros H.
  destruct (Z.ltb_spec size 0) as [Hneg|Hpos].
  - exfalso. destruct a as [|v a].
    + rewrite choice_empty in H by lia. discriminate.
    + rewrite choice_negative in H by (congruence || lia). discriminate.
  - destruct a as [|v a].
    + destruct (Z.eq_dec size 0) as [Hz|Hz].
      * split; [machine_bounds; lia|now right].
      * rewrite choice_empty in H by exact Hz. discriminate.
    + destruct (Z.ltb_spec int64_max size) as [Hbig|Hfit].
      * rewrite choice_too_big in H by (congruence || lia). discriminate.
      * split; [lia|left; congruence].
Qed.

End Draws.

(** * Properties of [RandomWalk] *)

Section Generator.

Import RandomWalk.

(** The array built by the constructor. *)
Lemma init_spec (steps size : Z) (w : world) :
  __init__ steps size w
  = (inr (mk steps (np_arange (- size) 0 ++ np_arange 1 (size + 1))),
     mkWorld (source w) (cursor w) (trace w ++ [Constructed steps size])).
Proof. reflexivity. Qed.

(** Whatever the array holds is a magnitude between 1 and [size], of either
    sign, and then [size] is below the limit of [np.arange]. *)
Lemma in_step_values_bounds (size v : Z) :
  In v (np_arange (- size) 0 ++ np_arange 1 (size + 1)) ->
  ((- size <= v <= -1) \/ (1 <= v <= size)) /\ size < arange_limit.
Proof.
  rewrite in_app_iff. intros [H|H]; apply in_np_arange_bounds in H; lia.
Qed.

Lemma in_step_values (size v : Z) :
  size < arange_limit ->
  In v (np_arange (- size) 0 ++ np_arange 1 (size + 1))
  <-> (- size <= v <= -1) \/ (1 <= v <= size).
Proof.
  intros Hsize. rewrite in_app_iff, !in_np_arange by lia. lia.
Qed.

Lemma step_values_nonempty (size : Z) :
  1 <= size < arange_limit ->
  np_arange (- size) 0 ++ np_arange 1 (size + 1) <> [].
Proof.
  intros Hsize Hnil.
  assert (Hin : In 1 (np_arange (- size) 0 ++ np_arange 1 (size + 1)))
    by (apply in_step_values; lia).
  rewrite Hnil in Hin. exact Hin.
Qed.

Lemma step_values_empty (size : Z) :
  size < 1 \/ arange_limit <= size ->
  np_arange (- size) 0 ++ np_arange 1 (size + 1) = [].
Proof.
  intros Hsize.
  destruct (np_arange (- size) 0 ++ np_arange 1 (size + 1)) as [|v l] eqn:E;
    [reflexivity|].
  assert (Hin : In v (np_arange (- size) 0 ++ np_arange 1 (size + 1)))
    by (rewrite E; now left).
  apply in_step_values_bounds in Hin. lia.
Qed.

(** A call on an object with a step count that is a legal array dimension
    and, unless the count is zero, a non-empty array of step values: it
    returns, and its result is built from the two drawn arrays as the source
    does. *)
Lemma call_spec (self : t) (w : world) :
  0 <= steps self <= int64_max ->
  step_values self <> [] \/ steps self = 0 ->
  exists directions magnitudes,
    length directions = Z.to_nat (steps self)
    /\ length magnitudes = Z.to_nat (steps self)
    /\ Forall (fun d => In d [0; 1]) directions
    /\ Forall (fun m => In m (step_values self)) magnitudes
    /\ fst (np_random_choice [0; 1] (steps self) w) = inr directions
    /\ fst (np_random_choice (step_values self) (steps self)
              (advance w (Z.to_nat (steps self)))) = inr magnitudes
    /\ __call__ self w
       = (inr (self,
               (0 :: np_cumsum (np_where (np_equal directions 0) magnitudes 0),
                0 :: np_cumsum (np_where (np_equal directions 1) magnitudes 0))),
          advance w (Z.to_nat (steps self) + Z.to_nat (steps self))).
Proof.
  intros Hsteps Hvals.
  destruct (choice_ok [0; 1] (steps self) w Hsteps)
    as (ds & Hds & Hlen_ds & Hin_ds); [left; discriminate|].
  destruct (choice_ok (step_values self) (steps self)
              (advance w (Z.to_nat (steps self))) Hsteps Hvals)
    as (ms & Hms & Hlen_ms & Hin_ms).
  exists ds, ms. repeat split; try assumption;
    try (now rewrite Hds); try (now rewrite Hms).
  unfold __call__, bind. rewrite Hds, Hms. unfold ret.
  now rewrite advance_advance.
Qed.

(** A call that returns was made on such an object. *)
Lemma call_inv (self : t) (w w' : world) (r : t * (list Z * list Z)) :
  __call__ self w = (inr r, w') ->
  0 <= steps self <= int64_max
  /\ (step_values self <> [] \/ steps self = 0).
Proof.
  unfold __call__, bind. intros H.
  destruct (np_random_choice [0; 1] (steps self) w) as [[e|ds] w1] eqn:E1;
    [discriminate|].
  destruct (np_random_choice (step_values self) (steps self) w1)
    as [[e|ms] w2] eqn:E2; [discriminate|].
  apply choice_inv in E1. apply choice_inv in E2. tauto.
Qed.

Lemma call_shape (self : t) (w w' : world) (r : t * (list Z * list Z)) :
  __call__ self w = (inr r, w') ->
  exists directions magnitudes,
    length directions = Z.to_nat (steps self)
    /\ length magnitudes = Z.to_nat (steps self)
    /\ Forall (fun d => In d [0; 1]) directions
    /\ Forall (fun m => In m (step_values self)) magnitudes
    /\ fst (np_random_choice [0; 1] (steps self) w) = inr directions
    /\ fst (np_random_choice (step_values self) (steps self)
              (advance w (Z.to_nat (steps self)))) = inr magnitudes
    /\ r = (self,
            (0 :: np_cumsum (np_where (np_equal directions 0) magnitudes 0),
             0 :: np_cumsum (np_where (np_equal directions 1) magnitudes 0)))
    /\ w' = advance w (Z.to_nat (steps self) + Z.to_nat (steps self)).
Proof.
  intros H. destruct (call_inv _ _ _ _ H) as [Hsteps Hvals].
  destruct (call_spec self w Hsteps Hvals)
    as (ds & ms & H1 & H2 & H3 & H4 & H5 & H6 & H7).
  exists ds, ms. rewrite H7 in H. inversion H. subst. tauto.
Qed.

(** Whatever a call raises is a [ValueError]. *)
Lemma call_raises_value_error (self : t) (w w' : world) (e : exn) :
  __call__ self w = (inl e, w') -> exists why, e = ValueError why.
Proof.
  unfold __call__, bind. intros H.
  destruct (np_random_choice [0; 1] (steps self) w) as [[e1|ds] w1] eqn:E1.
  - inversion H. subst.
    unfold np_random_choice in E1. simpl in E1.
    destruct (steps self <? 0); [inversion E1; eauto|].
    destruct (int64_max <? steps self); [inversion E1; eauto|].
    exfalso.
    destruct (sample_spec [0; 1] (Z.to_nat (steps self)) w)
      as (l & Hl & _); [left; discriminate|].
    rewrite Hl in E1. discriminate.
  - apply choice_inv in E1. destruct E1 as [Hsteps _].
    destruct (np_random_choice (step_values self) (steps self) w1)
      as [[e2|ms] w2] eqn:E2; [|discriminate].
    inversion H. subst.
    destruct (step_values self) as [|v vs] eqn:Ev.
    + destruct (Z.eq_dec (steps self) 0) as [Hz|Hz].
      * exfalso.
        destruct (choice_ok [] (steps self) w1 Hsteps (or_intror Hz))
          as (l & Hl & _).
        rewrite Hl in E2. discriminate.
      * rewrite choice_empty in E2 by exact Hz. inversion E2. eauto.
    + exfalso.
      destruct (choice_ok (v :: vs) (steps self) w1 Hsteps)
        as (l & Hl & _); [left; discriminate|].
      rewrite Hl in E2. discriminate.
Qed.

(** The entry of a coordinate array after step [i + 1] is the stored sum of
    the entry before and of the contribution of the step: the drawn
    magnitude on the drawn axis and zero on the other. *)
Lemma nth_succ_coordinate (axis : Z) (directions magnitudes : list Z) (i : nat) :
  length magnitudes = length directions -> (i < length directions)%nat ->
  nth (S i)
    (0 :: np_cumsum (np_where (np_equal directions axis) magnitudes 0)) 0
  = wrap64
      (nth i (0 :: np_cumsum
                     (np_where (np_equal directions axis) magnitudes 0)) 0
       + (if nth i directions 0 =? axis then nth i magnitudes 0 else 0)).
Proof.
  intros Hlen Hi. unfold np_cumsum.
  rewrite nth_succ_cumsum_from by (rewrite length_np_where; assumption).
  now rewrite nth_np_where.
Qed.

Lemma coordinate_in_int64 (a : list Z) (i : nat) :
  in_int64 (nth i (0 :: np_cumsum a) 0).
Proof.
  unfold np_cumsum. apply nth_cumsum_in_int64. machine_bounds. lia.
Qed.

(** A step that contributes nothing to an axis leaves the coordinate. *)
Lemma delta_idle (a : list Z) (i : nat) :
  (i < length a)%nat -> nth i a 0 = 0 ->
  delta (0 :: np_cumsum a) (S i) = 0.
Proof.
  intros Hi Hzero. unfold delta, np_cumsum.
  replace (S i - 1)%nat with i by lia.
  rewrite nth_succ_cumsum_from by exact Hi.
  rewrite Hzero, Z.add_0_r, wrap64_small; [lia|].
  apply nth_cumsum_in_int64. machine_bounds. lia.
Qed.

(** A step that contributes a non-zero 64-bit magnitude moves the
    coordinate, whether the sum wraps around or not. *)
Lemma delta_moving (a : list Z) (i : nat) :
  (i < length a)%nat -> nth i a 0 <> 0 -> in_int64 (nth i a 0) ->
  delta (0 :: np_cumsum a) (S i) <> 0.
Proof.
  intros Hi Hnz Hfit. unfold delta, np_cumsum.
  replace (S i - 1)%nat with i by lia.
  rewrite nth_succ_cumsum_from by exact Hi.
  destruct (wrap64_shift (nth i (0 :: cumsum_from 0 a) 0 + nth i a 0))
    as [k Hk].
  rewrite Hk. machine_bounds. lia.
Qed.

Lemma nth_Forall_in (P : Z -> Prop) (l : list Z) (i : nat) :
  Forall P l -> (i < length l)%nat -> P (nth i l 0).
Proof.
  intros HF Hi. rewrite Forall_forall in HF. apply HF. now apply nth_In.
Qed.

End Generator.

(** * The walks *)


Lemma length_step_contribution (axis : Z) (directions magnitudes : list Z) :
  length magnitudes = length directions ->
  length (step_contribution axis directions magnitudes) = length directions.
Proof.
  intros Hlen. unfold step_contribution.
  rewrite length_map, length_combine. lia.
Qed.

(** The contributions to an axis are no larger than the magnitudes. *)
Lemma np_where_bounded (bound axis : Z) (directions : list Z) :
  forall magnitudes : list Z,
    0 <= bound ->
    Forall (fun m => Z.abs m <= bound) magnitudes ->
    Forall (fun v => Z.abs v <= bound)
      (np_where (np_equal directions axis) magnitudes 0).
Proof.
  induction directions as [|d ds IH]; intros [|m ms] Hb Hm; simpl;
    try constructor.
  - inversion Hm. subst. destruct (d =? axis); simpl; lia.
  - inversion Hm. subst. fold (np_equal ds axis). now apply IH.
Qed.



(** A drawn direction is an axis and a drawn magnitude is not zero. *)
Lemma drawn_step (self : RandomWalk.t) (steps size : Z)
      (directions magnitudes : list Z) (i : nat) :
  RandomWalk.step_values self
  = np_arange (- size) 0 ++ np_arange 1 (size + 1) ->
  Forall (fun d => In d [0; 1]) directions ->
  Forall (fun m => In m (RandomWalk.step_values self)) magnitudes ->
  length magnitudes = length directions ->
  (i < length directions)%nat ->
  (nth i directions 0 = 0 \/ nth i directions 0 = 1)
  /\ nth i magnitudes 0 <> 0
  /\ 1 <= Z.abs (nth i magnitudes 0) <= size
  /\ size < arange_limit.
Proof.
  intros Hvals Hd Hm Hlen Hi.
  pose proof (nth_Forall_in _ _ i Hd Hi) as Hdi.
  assert (Hi' : (i < length magnitudes)%nat) by lia.
  pose proof (nth_Forall_in _ _ i Hm Hi') as Hmi.
  simpl in Hdi. rewrite Hvals in Hmi. apply in_step_values_bounds in Hmi.
  repeat split; lia.
Qed.

(** C2. In every walk generated with a maximal magnitude of at least 1, at
    every step index [i] from 1 to the step count, exactly one of the two
    changes [x[i] - x[i-1]] and [y[i] - y[i-1]] is not zero and the other is
    zero. *)
Theorem single_axis_per_step
    (steps size : Z) (w0 w1 w w' : world) (self self' : RandomWalk.t)
    (x y : list Z) (i : nat) :
  1 <= size ->
  RandomWalk.__init__ steps size w0 = (inr self, w1) ->
  RandomWalk.__call__ self w = (inr (self', (x, y)), w') ->
  (1 <= i)%nat -> Z.of_nat i <= steps ->
  (delta x i <> 0 /\ delta y i = 0) \/ (delta x i = 0 /\ delta y i <> 0).
Proof.
  intros Hsize Hinit Hcall Hi1 Hi2.
  rewrite init_spec in Hinit. inversion Hinit as [[Hself Hw1]]. clear Hinit.
  destruct (call_shape _ _ _ _ Hcall)
    as (ds & ms & Hlen_ds & Hlen_ms & Hds & Hms & _ & _ & Hr & _).
  inversion Hr as [[Hself' Hx Hy]]. clear Hr.
  rewrite <- Hself in Hlen_ds, Hlen_ms. simpl in Hlen_ds, Hlen_ms.
  destruct i as [|j]; [lia|].
  assert (Hj : (j < length ds)%nat) by lia.
  assert (Hlen : length ms = length ds) by lia.
  destruct (drawn_step self steps size ds ms j) as (Hd & Hm & Hm' & Hlim);
    try assumption; [now rewrite <- Hself|].
  assert (Hfit : in_int64 (nth j ms 0)) by (machine_bounds; lia).
  assert (Hjx : (j < length (np_where (np_equal ds 0) ms 0))%nat)
    by (rewrite length_np_where; assumption).
  assert (Hjy : (j < length (np_where (np_equal ds 1) ms 0))%nat)
    by (rewrite length_np_where; assumption).
  destruct Hd as [Hd|Hd]; [left|right]; split.
  - apply delta_moving; try assumption;
      rewrite nth_np_where, Hd by assumption; assumption.
  - apply delta_idle; try assumption.
    rewrite nth_np_where, Hd by assumption. reflexivity.
  - apply delta_idle; try assumption.
    rewrite nth_np_where, Hd by assumption. reflexivity.
  - apply delta_moving; try assumption;
      rewrite nth_np_where, Hd by assumption; assumption.
Qed.

Lemma single_axis_per_step_witness :
  (delta [0; 2; 2; -1; -1] 2 <> 0 /\ delta [0; 0; 3; 3; 1] 2 = 0)
  \/ (delta [0; 2; 2; -1; -1] 2 = 0 /\ delta [0; 0; 3; 3; 1] 2 <> 0).
Proof.
  apply (single_axis_per_step 4 3 counting_world
           (mkWorld (fun i => i) 0 [Constructed 4 3])
           counting_world (advance counting_world 8)
           (RandomWalk.mk 4 [-3; -2; -1; 1; 2; 3])
           (RandomWalk.mk 4 [-3; -2; -1; 1; 2; 3])).
  - lia.
  - reflexivity.
  - reflexivity.
  - lia.
  - lia.
Defined.







(** C8, at a maximal magnitude of [2^63 - 1] and one step: the object is
    constructed, with no step value, and the call on it raises. *)
Lemma generation_fails_on_huge_magnitude :
  RandomWalk.__init__ 1 int64_max zero_world
  = (inr (RandomWalk.mk 1 []),
     mkWorld (fun _ => O) 0 [Constructed 1 int64_max])
  /\ RandomWalk.__call__ (RandomWalk.mk 1 [])
       (mkWorld (fun _ => O) 0 [Constructed 1 int64_max])
     = (inl (ValueError EmptyPopulation),
        mkWorld (fun _ => O) 1 [Constructed 1 int64_max; EntropyDraw]).
Proof. split; reflexivity. Qed.

(** C8, within 64 bits.  On an object constructed with a step count that is
    not negative and a maximal magnitude of at least 1, both below
    [max_length], a call always returns a walk: it has no way to raise, in
    whatever state the random source is. *)
Theorem generation_never_fails (steps size : Z) (w0 : world) :
  0 <= steps < max_length -> 1 <= size < max_length ->
  exists (self : RandomWalk.t) (w1 : world),
    RandomWalk.__init__ steps size w0 = (inr self, w1)
    /\ forall w : world,
         exists (x y : list Z) (w' : world),
           RandomWalk.__call__ self w = (inr (self, (x, y)), w').
Proof.
  intros Hsteps Hsize.
  eexists. eexists. split; [apply init_spec|].
  intros w.
  destruct (call_spec (RandomWalk.mk steps
              (np_arange (- size) 0 ++ np_arange 1 (size + 1))) w) as
    (ds & ms & _ & _ & _ & _ & _ & _ & Hcall).
  { simpl. machine_bounds. lia. }
  { left. apply step_values_nonempty. machine_bounds. lia. }
  eexists. eexists. eexists. exact Hcall.
Qed.

Lemma generation_never_fails_witness :
  exists (self : RandomWalk.t) (w1 : world),
    RandomWalk.__init__ 4 3 counting_world = (inr self, w1)
    /\ forall w : world,
         exists (x y : list Z) (w' : world),
           RandomWalk.__call__ self w = (inr (self, (x, y)), w').
Proof.
  apply (generation_never_fails 4 3 counting_world); unfold max_length; lia.
Defined.

(** * Frame properties of the computations *)

Section Frames.

Lemma same_entropy_refl (w : world) : same_entropy w w.
Proof. split; reflexivity. Qed.

Lemma same_entropy_sym (w1 w2 : world) :
  same_entropy w1 w2 -> same_entropy w2 w1.
Proof. intros [H1 H2]. split; congruence. Qed.

Lemma same_entropy_trans (w1 w2 w3 : world) :
  same_entropy w1 w2 -> same_entropy w2 w3 -> same_entropy w1 w3.
Proof. intros [H1 H2] [H3 H4]. split; congruence. Qed.

Lemma entropy_only_ret {A} (a : A) : entropy_only (ret a).
Proof. intros w1 w2 H. simpl. auto. Qed.

Lemma entropy_only_raise {A} (e : exn) : entropy_only (@raise A e).
Proof. intros w1 w2 H. simpl. auto. Qed.

Lemma entropy_only_bind {A B} (c : M A) (k : A -> M B) :
  entropy_only c -> (forall a, entropy_only (k a)) ->
  entropy_only (bind c k).
Proof.
  intros Hc Hk w1 w2 H. unfold bind.
  destruct (Hc w1 w2 H) as [Hfst Hsnd].
  destruct (c w1) as [[e1|a1] v1], (c w2) as [[e2|a2] v2];
    simpl in Hfst, Hsnd; try discriminate.
  - inversion Hfst. simpl. auto.
  - inversion Hfst. subst. apply Hk. exact Hsnd.
Qed.

Lemma entropy_only_draw (n : nat) : entropy_only (draw n).
Proof.
  intros w1 w2 [Hs Hc]. unfold draw, same_entropy. simpl.
  rewrite Hs, Hc. auto.
Qed.

Lemma entropy_only_emit (e : event) : entropy_only (emit e).
Proof. intros w1 w2 [Hs Hc]. unfold emit, same_entropy. simpl. auto. Qed.

Lemma entropy_only_sample (a : list Z) (k : nat) : entropy_only (sample a k).
Proof.
  induction k as [|k IH]; simpl.
  - apply entropy_only_ret.
  - apply entropy_only_bind; [apply entropy_only_draw|]. intros i.
    apply entropy_only_bind; [exact IH|]. intros rest.
    apply entropy_only_ret.
Qed.

Lemma entropy_only_choice (a : list Z) (size : Z) :
  entropy_only (np_random_choice a size).
Proof.
  unfold np_random_choice.
  destruct (Nat.eqb (length a) 0 && negb (size =? 0));
    [apply entropy_only_raise|].
  destruct (size <? 0); [apply entropy_only_raise|].
  destruct (int64_max <? size); [apply entropy_only_raise|].
  apply entropy_only_sample.
Qed.

Lemma entropy_only_call (self : RandomWalk.t) :
  entropy_only (RandomWalk.__call__ self).
Proof.
  unfold RandomWalk.__call__.
  apply entropy_only_bind; [apply entropy_only_choice|]. intros ds.
  apply entropy_only_bind; [apply entropy_only_choice|]. intros ms.
  apply entropy_only_ret.
Qed.













End Frames.


(** * The batch *)

Section Batch.

(** Asking the bar for the next item touches the trace only. *)
Lemma drawless_tqdm_next (bar : tqdm) : drawless (tqdm_next bar).
Proof.
  intros w. unfold tqdm_next, bind, emit, ret.
  destruct (bar_resumed bar); simpl;
    destruct (range_next _) as [[obj it']|]; simpl;
    split; reflexivity.
Qed.

(** While the range has items the bar hands out the next one. *)
Lemma tqdm_next_item (bar : tqdm) (w : world) :
  range_pos (bar_iterable bar) < range_stop (bar_iterable bar) ->
  exists bar' w',
    tqdm_next bar w = (inr (Some (range_pos (bar_iterable bar)), bar'), w')
    /\ bar_iterable bar'
       = mkRange (range_pos (bar_iterable bar) + 1)
                 (range_stop (bar_iterable bar))
    /\ same_entropy w' w.
Proof.
  intros Hlt. pose proof (drawless_tqdm_next bar w) as Hd.
  revert Hd. unfold tqdm_next, bind, emit, ret, range_next.
  apply Z.ltb_lt in Hlt.
  destruct (bar_resumed bar); simpl; rewrite Hlt; simpl; intros Hd;
    eexists; eexists; split; try reflexivity; split;
    try reflexivity; exact Hd.
Qed.

(** Once the range is exhausted the bar closes and hands out nothing. *)
Lemma tqdm_next_end (bar : tqdm) (w : world) :
  range_stop (bar_iterable bar) <= range_pos (bar_iterable bar) ->
  exists bar' w', tqdm_next bar w = (inr (None, bar'), w').
Proof.
  intros Hge. unfold tqdm_next, bind, emit, ret, range_next.
  apply Z.ltb_ge in Hge.
  destruct (bar_resumed bar); simpl; rewrite Hge; simpl;
    eexists; eexists; reflexivity.
Qed.

(** A pull on a suspended generator whose range has items left: one more
    call on the same object, whose walk is yielded. *)
Lemma next_item (self : RandomWalk.t) (bar : tqdm) (w : world) :
  0 <= RandomWalk.steps self <= int64_max ->
  RandomWalk.step_values self <> [] \/ RandomWalk.steps self = 0 ->
  range_pos (bar_iterable bar) < range_stop (bar_iterable bar) ->
  exists x y bar' w1 w',
    same_entropy w1 w
    /\ RandomWalk.__call__ self w1 = (inr (self, (x, y)), w')
    /\ bar_iterable bar'
       = mkRange (range_pos (bar_iterable bar) + 1)
                 (range_stop (bar_iterable bar))
    /\ next (Suspended self bar) w
       = (Yield (mkResult x y), Suspended self bar', w').
Proof.
  intros Hsteps Hvals Hlt.
  destruct (tqdm_next_item bar w Hlt) as (bar' & w1 & Hbar & Hit & Hw1).
  destruct (call_spec self w1 Hsteps Hvals)
    as (ds & ms & _ & _ & _ & _ & _ & _ & Hcall).
  do 5 eexists. split; [exact Hw1|]. split; [exact Hcall|].
  split; [exact Hit|].
  unfold next, resume, loop, bind. rewrite Hbar. simpl.
  unfold on_raise. rewrite Hcall. reflexivity.
Qed.

(** A pull on a suspended generator whose range is exhausted. *)
Lemma next_end (self : RandomWalk.t) (bar : tqdm) (w : world) :
  range_stop (bar_iterable bar) <= range_pos (bar_iterable bar) ->
  exists w', next (Suspended self bar) w = (StopIteration, Finished, w').
Proof.
  intros Hge. destruct (tqdm_next_end bar w Hge) as (bar' & w' & Hbar).
  exists w'. unfold next, resume, loop, bind. rewrite Hbar. reflexivity.
Qed.

(** The first pull runs the constructor, opens the bar and then goes on as
    a pull on the suspended generator does. *)
Lemma next_created (total_walks walk_step size : Z) (w : world) :
  total_walks <= int64_max ->
  next (Created total_walks walk_step size) w
  = next (Suspended
            (RandomWalk.mk walk_step
               (np_arange (- size) 0 ++ np_arange 1 (size + 1)))
            (mkTqdm (range total_walks) (Z.to_nat total_walks) 0 false))
         (mkWorld (source w) (cursor w)
            (trace w ++ [Constructed walk_step size;
                         ProgressOpen (Z.to_nat total_walks)])).
Proof.
  intros Htotal.
  unfold next, resume. unfold bind at 1 2.
  rewrite init_spec. unfold tqdm_new. cbn [range range_pos range_stop].
  rewrite Z.sub_0_r.
  assert (Hfit : (int64_max <? total_walks) = false) by lia. rewrite Hfit.
  unfold bind at 1, emit, ret. simpl.
  rewrite <- app_assoc. simpl.
  unfold range_len. simpl. now rewrite Z.sub_0_r.
Qed.


(** Consuming a suspended generator with [k] items left in its range. *)
Lemma consume_suspended (self : RandomWalk.t) (k : nat) :
  0 <= RandomWalk.steps self <= int64_max ->
  RandomWalk.step_values self <> [] \/ RandomWalk.steps self = 0 ->
  forall (fuel : nat) (bar : tqdm) (w : world),
    Z.to_nat (range_stop (bar_iterable bar) - range_pos (bar_iterable bar))
    = k ->
    (k < fuel)%nat ->
    exists rs w',
      consume fuel (Suspended self bar) w = (rs, Exhausted, w')
      /\ length rs = k
      /\ forall wg, same_entropy wg w -> fst (generate k self wg) = inr rs.
Proof.
  intros Hsteps Hvals.
  induction k as [|k IH]; intros fuel bar w Hk Hfuel;
    (destruct fuel as [|fuel]; [lia|]).
  - destruct (next_end self bar w) as (w' & Hnext); [lia|].
    exists [], w'. simpl. rewrite Hnext. auto.
  - destruct (next_item self bar w Hsteps Hvals)
      as (x & y & bar' & w1 & w2 & Hw1 & Hcall & Hit & Hnext); [lia|].
    destruct (IH fuel bar' w2) as (rs & w' & Hrs & Hlen & Hgen).
    { rewrite Hit. simpl. lia. }
    { lia. }
    exists (mkResult x y :: rs), w'.
    split; [|split].
    + cbn [consume]. rewrite Hnext, Hrs. reflexivity.
    + simpl. now rewrite Hlen.
    + intros wg Hwg. cbn [generate]. unfold bind at 1.
      destruct (entropy_only_call self wg w1) as [Hfst Hsnd].
      { eapply same_entropy_trans; [exact Hwg|].
        now apply same_entropy_sym. }
      rewrite Hcall in Hfst, Hsnd. simpl in Hfst, Hsnd.
      destruct (RandomWalk.__call__ self wg) as [[e|r] wg'];
        simpl in Hfst; [discriminate|].
      inversion Hfst. subst r. simpl.
      specialize (Hgen wg' Hsnd).
      unfold bind.
      destruct (generate k self wg') as [[e|rs'] wg''];
        simpl in Hgen; [discriminate|].
      inversion Hgen. reflexivity.
Qed.

End Batch.


(** * Invalid configurations *)

Section Invalid.

(** A negative step count makes the first draw of a call raise, before
    anything is drawn. *)
Lemma call_negative_steps (self : RandomWalk.t) (w : world) :
  RandomWalk.steps self < 0 ->
  RandomWalk.__call__ self w = (inl (ValueError NegativeDimensions), w).
Proof.
  intros Hneg. unfold RandomWalk.__call__, bind.
  rewrite choice_negative by (discriminate || exact Hneg). reflexivity.
Qed.

(** With no step value and a positive step count the directions are drawn
    and the draw of the magnitudes raises. *)
Lemma call_no_step_value (self : RandomWalk.t) (w : world) :
  0 < RandomWalk.steps self <= int64_max ->
  RandomWalk.step_values self = [] ->
  RandomWalk.__call__ self w
  = (inl (ValueError EmptyPopulation),
     advance w (Z.to_nat (RandomWalk.steps self))).
Proof.
  intros Hpos Hnil. unfold RandomWalk.__call__, bind.
  destruct (choice_ok [0; 1] (RandomWalk.steps self) w)
    as (ds & Hds & _); [lia|left; discriminate|].
  rewrite Hds, Hnil. rewrite choice_empty by lia. reflexivity.
Qed.

(** The first pull of a batch of at least one walk on such a configuration:
    the bar is opened, the call raises, the bar is closed and the exception
    reaches the caller. *)
Lemma first_pull_fails (total steps size : Z) (w : world) :
  steps < 0 \/ (size < 1 /\ 0 < steps <= int64_max) ->
  1 <= total <= int64_max ->
  next (use_randomwalk total steps size) w
  = (Raise (ValueError (if steps <? 0 then NegativeDimensions
                        else EmptyPopulation)),
     Finished,
     tell (advance (tell w [Constructed steps size;
                            ProgressOpen (Z.to_nat total)])
             (if steps <? 0 then 0 else Z.to_nat steps))
          [ProgressClose]).
Proof.
  intros Hbad Htotal. unfold use_randomwalk.
  rewrite next_created by lia.
  fold (tell w [Constructed steps size; ProgressOpen (Z.to_nat total)]).
  set (self := RandomWalk.mk steps _). set (bar := mkTqdm _ _ _ _).
  set (w2 := tell w _).
  destruct (tqdm_next_item bar w2) as (bar' & w3 & Hbar & _ & _);
    [simpl; lia|].
  assert (Hw3 : w3 = w2).
  { unfold tqdm_next, bind, ret in Hbar. simpl in Hbar.
    destruct (range_next (range total)) as [[obj it']|];
      unfold bind, emit in Hbar; simpl in Hbar; congruence. }
  subst w3.
  unfold next, resume, loop, bind. rewrite Hbar. simpl. unfold on_raise.
  destruct (Z.ltb_spec steps 0) as [Hneg|Hpos].
  - rewrite call_negative_steps by exact Hneg.
    rewrite advance_0. reflexivity.
  - rewrite call_no_step_value;
      [reflexivity|simpl; lia|simpl; apply step_values_empty; lia].
Qed.

End Invalid.

(** C1, as the source has it.  The constructor validates nothing: with a
    negative step count, or with a maximal magnitude below 1 and a positive
    step count, both within [max_length] of zero, it returns an object, and
    the failure is the [ValueError] of the first generation call.  For a batch of at least one and at most
    [2^63 - 1] walks the first pull raises it and the batch yields no
    walk. *)
Theorem invalid_configuration_fails_at_first_call
    (total steps size : Z) (w : world) (fuel : nat) :
  (- max_length < steps < 0 /\ - max_length < size < max_length)
  \/ (- max_length < size < 1 /\ 0 < steps < max_length) ->
  1 <= total <= int64_max ->
  exists (self : RandomWalk.t) (w1 : world) (why : value_error) (w' : world),
    RandomWalk.__init__ steps size w = (inr self, w1)
    /\ (forall wc, fst (RandomWalk.__call__ self wc) = inl (ValueError why))
    /\ next (use_randomwalk total steps size) w
       = (Raise (ValueError why), Finished, w')
    /\ consume (S fuel) (use_randomwalk total steps size) w
       = ([], Failed (ValueError why), w').
Proof.
  intros Hbad Htotal.
  assert (Hbad' : steps < 0 \/ (size < 1 /\ 0 < steps <= int64_max))
    by (machine_bounds; lia).
  pose proof (first_pull_fails total steps size w Hbad' Htotal) as Hnext.
  eexists. eexists.
  exists (if steps <? 0 then NegativeDimensions else EmptyPopulation).
  eexists. split; [apply init_spec|]. split; [|split].
  - intros wc. destruct (Z.ltb_spec steps 0) as [Hneg|Hpos].
    + rewrite call_negative_steps by exact Hneg. reflexivity.
    + rewrite call_no_step_value;
        [reflexivity|simpl; lia|simpl; apply step_values_empty; lia].
  - exact Hnext.
  - cbn [consume]. rewrite Hnext. reflexivity.
Qed.

Lemma invalid_configuration_fails_at_first_call_witness :
  exists (self : RandomWalk.t) (w1 : world) (why : value_error) (w' : world),
    RandomWalk.__init__ 5 0 counting_world = (inr self, w1)
    /\ (forall wc, fst (RandomWalk.__call__ self wc) = inl (ValueError why))
    /\ next (use_randomwalk 1 5 0) counting_world
       = (Raise (ValueError why), Finished, w')
    /\ consume 1 (use_randomwalk 1 5 0) counting_world
       = ([], Failed (ValueError why), w').
Proof.
  apply (invalid_configuration_fails_at_first_call 1 5 0 counting_world 0).
  - right. unfold max_length. lia.
  - unfold int64_max. lia.
Defined.

(** C1, at [produce(1, 5, 0)].  The constructor accepts a maximal magnitude
    of 0 instead of raising: it returns an object
    with an empty array of step values, and the error appears only when the
    first walk is asked for. *)
Lemma construction_accepts_zero_magnitude :
  RandomWalk.__init__ 5 0 counting_world
  = (inr (RandomWalk.mk 5 []), mkWorld (fun i => i) 0 [Constructed 5 0])
  /\ fst (RandomWalk.__call__ (RandomWalk.mk 5 [])
            (mkWorld (fun i => i) 0 [Constructed 5 0]))
     = inl (ValueError EmptyPopulation).
Proof. split; reflexivity. Qed.

(** C7, as the source has it.  On such a configuration the first pull of a
    batch of at least one and at most [2^63 - 1] walks fails after the
    object has been constructed and the progress bar opened at [0/total],
    and before the bar advances or a walk is yielded; the bar is closed on
    the way out.  With a negative step count nothing has been drawn; with a
    maximal magnitude below 1 and a positive step count the directions of
    all steps have been drawn. *)
Theorem invalid_configuration_failure_trace
    (total steps size : Z) (w : world) :
  (- max_length < steps < 0 /\ - max_length < size < max_length)
  \/ (- max_length < size < 1 /\ 0 < steps < max_length) ->
  1 <= total <= int64_max ->
  exists (e : exn) (w' : world),
    next (use_randomwalk total steps size) w = (Raise e, Finished, w')
    /\ trace w'
       = trace w
         ++ [Constructed steps size; ProgressOpen (Z.to_nat total)]
         ++ repeat EntropyDraw (if steps <? 0 then 0 else Z.to_nat steps)
         ++ [ProgressClose]
    /\ cursor w'
       = (cursor w + (if (steps <? 0)%Z then 0 else Z.to_nat steps))%nat.
Proof.
  intros Hbad Htotal.
  assert (Hbad' : steps < 0 \/ (size < 1 /\ 0 < steps <= int64_max))
    by (machine_bounds; lia).
  do 2 eexists. split; [apply first_pull_fails; assumption|].
  unfold tell, advance. simpl. split; [|reflexivity].
  now rewrite <- !app_assoc.
Qed.

Lemma invalid_configuration_failure_trace_witness :
  exists (e : exn) (w' : world),
    next (use_randomwalk 1 5 0) counting_world = (Raise e, Finished, w')
    /\ trace w'
       = trace counting_world
         ++ [Constructed 5 0; ProgressOpen (Z.to_nat 1)]
         ++ repeat EntropyDraw (if 5 <? 0 then 0 else Z.to_nat 5)
         ++ [ProgressClose]
    /\ cursor w'
       = (cursor counting_world
          + (if (5 <? 0)%Z then 0 else Z.to_nat 5))%nat.
Proof.
  apply (invalid_configuration_failure_trace 1 5 0 counting_world).
  - right. unfold max_length. lia.
  - unfold int64_max. lia.
Defined.

(** C7, at [produce(1, 5, 0)].  With a maximal magnitude of 0 the failure
    comes after the progress bar was opened, after five samples were drawn
    and after the bar was closed. *)
Lemma progress_and_entropy_precede_failure :
  next (use_randomwalk 1 5 0) counting_world
  = (Raise (ValueError EmptyPopulation), Finished,
     mkWorld (fun i => i) 5
       [Constructed 5 0; ProgressOpen 1;
        EntropyDraw; EntropyDraw; EntropyDraw; EntropyDraw; EntropyDraw;
        ProgressClose]).
Proof. reflexivity. Qed.

(** * Batches on valid configurations *)

(** C5, at [2^63] walks of 4 steps and magnitude 3: the first pull raises
    [OverflowError] on the length of the range, after the constructor and
    before any bar or walk; the batch yields nothing. *)
Lemma too_many_walks_overflow :
  next (use_randomwalk 9223372036854775808 4 3) counting_world
  = (Raise OverflowError, Finished,
     mkWorld (fun i => i) 0 [Constructed 4 3])
  /\ consume 1 (use_randomwalk 9223372036854775808 4 3) counting_world
     = ([], Failed OverflowError, mkWorld (fun i => i) 0 [Constructed 4 3]).
Proof. split; reflexivity. Qed.

(** C5, within 64 bits.  For a number of walks between 0 and [2^63 - 1], a
    step count that is not negative and a maximal magnitude of at least 1,
    both below [max_length], a consumer given enough fuel sees the batch end
    by exhaustion after exactly [total] walks, which are the results of
    [total] calls in a row on the constructed object, in the order of the
    calls; the first pull yields the first of them, or stops at once when
    there is none. *)
Theorem batch_yields_total_walks
    (total steps size : Z) (w : world) (fuel : nat) :
  0 <= total <= int64_max ->
  0 <= steps < max_length -> 1 <= size < max_length ->
  (Z.to_nat total < fuel)%nat ->
  exists (self : RandomWalk.t) (w1 : world) (rs : list Result) (w' : world),
    RandomWalk.__init__ steps size w = (inr self, w1)
    /\ consume fuel (use_randomwalk total steps size) w = (rs, Exhausted, w')
    /\ length rs = Z.to_nat total
    /\ fst (generate (Z.to_nat total) self w1) = inr rs
    /\ fst (fst (next (use_randomwalk total steps size) w))
       = match rs with
         | [] => StopIteration
         | r :: _ => Yield r
         end.
Proof.
  intros Htotal Hsteps Hsize Hfuel.
  set (self := RandomWalk.mk steps
                 (np_arange (- size) 0 ++ np_arange 1 (size + 1))).
  set (bar := mkTqdm (range total) (Z.to_nat total) 0 false).
  set (w2 := mkWorld (source w) (cursor w)
               (trace w ++ [Constructed steps size;
                            ProgressOpen (Z.to_nat total)])).
  destruct fuel as [|fuel]; [lia|].
  destruct (consume_suspended self (Z.to_nat total)) with
    (fuel := S fuel) (bar := bar) (w := w2) as (rs & w' & Hrs & Hlen & Hgen).
  { simpl. machine_bounds. lia. }
  { left. apply step_values_nonempty. machine_bounds. lia. }
  { simpl. f_equal. lia. }
  { exact Hfuel. }
  assert (Hc : consume (S fuel) (use_randomwalk total steps size) w
               = consume (S fuel) (Suspended self bar) w2).
  { cbn [consume]. unfold use_randomwalk. now rewrite next_created by lia. }
  exists self, (mkWorld (source w) (cursor w)
                  (trace w ++ [Constructed steps size])), rs, w'.
  split; [apply init_spec|].
  split; [now rewrite Hc|].
  split; [exact Hlen|].
  split; [apply Hgen; split; reflexivity|].
  unfold use_randomwalk. rewrite next_created by lia. fold self bar w2.
  cbn [consume] in Hrs.
  destruct (next (Suspended self bar) w2) as [[[r| |e] g1] w3]; simpl.
  - destruct (consume fuel g1 w3) as [[rs1 e1] w4]. now inversion Hrs.
  - now inversion Hrs.
  - discriminate.
Qed.

Lemma batch_yields_total_walks_witness :
  exists (self : RandomWalk.t) (w1 : world) (rs : list Result) (w' : world),
    RandomWalk.__init__ 4 3 counting_world = (inr self, w1)
    /\ consume 3 (use_randomwalk 2 4 3) counting_world = (rs, Exhausted, w')
    /\ length rs = Z.to_nat 2
    /\ fst (generate (Z.to_nat 2) self w1) = inr rs
    /\ fst (fst (next (use_randomwalk 2 4 3) counting_world))
       = match rs with
         | [] => StopIteration
         | r :: _ => Yield r
         end.
Proof.
  apply (batch_yields_total_walks 2 4 3 counting_world 3);
    unfold int64_max, max_length; lia.
Defined.

(** C6. A step count of zero is not an error: whatever the random source,
    [produce(1, 0, 3)] yields the single walk [x = [0]], [y = [0]] and then
    is exhausted. *)
Theorem zero_steps_yields_origin (w : world) (fuel : nat) :
  exists w' : world,
    consume (S (S fuel)) (use_randomwalk 1 0 3) w
    = ([mkResult [0] [0]], Exhausted, w').
Proof. eexists. reflexivity. Qed.

(** C10. For a number of walks that is zero or negative, and any step count
    and maximal magnitude, the first pull stops the iteration: no walk is
    yielded, nothing is raised and nothing is drawn. *)
Theorem empty_range_yields_nothing
    (total steps size : Z) (w : world) (fuel : nat) :
  total <= 0 ->
  exists w' : world,
    next (use_randomwalk total steps size) w = (StopIteration, Finished, w')
    /\ consume (S fuel) (use_randomwalk total steps size) w
       = ([], Exhausted, w')
    /\ trace w'
       = trace w ++ [Constructed steps size; ProgressOpen 0; ProgressClose]
    /\ cursor w' = cursor w.
Proof.
  intros Htotal.
  assert (Hnext : next (use_randomwalk total steps size) w
                  = (StopIteration, Finished,
                     mkWorld (source w) (cursor w)
                       (trace w ++ [Constructed steps size; ProgressOpen 0;
                                    ProgressClose]))).
  { unfold use_randomwalk. rewrite next_created by (unfold int64_max; lia).
    unfold next, resume, loop, tqdm_next, bind, ret, emit, range_next.
    simpl.
    assert (Hlt : (0 <? total) = false) by lia. rewrite Hlt. simpl.
    replace (Z.to_nat total) with O by lia.
    now rewrite <- app_assoc. }
  eexists. split; [exact Hnext|].
  split; [cbn [consume]; now rewrite Hnext|].
  split; reflexivity.
Qed.

Lemma empty_range_yields_nothing_witness :
  exists w' : world,
    next (use_randomwalk (-3) 5 0) counting_world
    = (StopIteration, Finished, w')
    /\ consume 1 (use_randomwalk (-3) 5 0) counting_world
       = ([], Exhausted, w')
    /\ trace w'
       = trace counting_world
         ++ [Constructed 5 0; ProgressOpen 0; ProgressClose]
    /\ cursor w' = cursor counting_world.
Proof.
  apply (empty_range_yields_nothing (-3) 5 0 counting_world 0). lia.
Defined.

(** * The stored configuration *)

Section Configuration.





End Configuration.


(** * Further properties of [RandomWalk] *)

Section StepValues.

Lemma nth_np_arange (start stop : Z) (i : nat) :
  stop - start < arange_limit ->
  (i < Z.to_nat (stop - start))%nat ->
  nth i (np_arange start stop) 0 = start + Z.of_nat i.
Proof.
  intros Hlen Hi. unfold np_arange.
  apply Z.ltb_lt in Hlen. rewrite Hlen.
  rewrite nth_indep with (d' := start + Z.of_nat 0)
    by (rewrite length_map, length_seq; exact Hi).
  rewrite (map_nth (fun j => start + Z.of_nat j)).
  now rewrite seq_nth by exact Hi.
Qed.

Lemma NoDup_np_arange (start stop : Z) : NoDup (np_arange start stop).
Proof.
  unfold np_arange. destruct (stop - start <? arange_limit); [|constructor].
  apply NoDup_map_NoDup_ForallPairs; [|apply seq_NoDup].
  intros i j _ _ H. lia.
Qed.

End StepValues.

(** X1. For a maximal magnitude within [max_length] of zero the array of
    step values
    built by the constructor has [2 * size] entries (none when [size] is not
    positive), no entry twice, the negative values first in increasing order
    and then the positive ones: entry [i] is [i - size] and entry
    [size + i] is [i + 1], for [i < size]. *)
Theorem step_values_layout
    (steps size : Z) (w0 w1 : world) (self : RandomWalk.t) :
  - max_length < size < max_length ->
  RandomWalk.__init__ steps size w0 = (inr self, w1) ->
  length (RandomWalk.step_values self) = (2 * Z.to_nat size)%nat
  /\ NoDup (RandomWalk.step_values self)
  /\ forall i : nat, (i < Z.to_nat size)%nat ->
       nth i (RandomWalk.step_values self) 0 = Z.of_nat i - size
       /\ nth (Z.to_nat size + i) (RandomWalk.step_values self) 0
          = Z.of_nat i + 1.
Proof.
  intros Hsize Hinit.
  rewrite init_spec in Hinit. inversion Hinit as [[Hself Hw1]]. clear Hinit.
  assert (Hlim : size < arange_limit) by (machine_bounds; lia).
  simpl. split; [|split].
  - rewrite length_app, !length_np_arange by lia. lia.
  - apply NoDup_app; try apply NoDup_np_arange.
    intros v Hneg Hpos.
    apply in_np_arange_bounds in Hneg, Hpos. lia.
  - intros i Hi. split.
    + rewrite app_nth1 by (rewrite length_np_arange; lia).
      rewrite nth_np_arange by lia. lia.
    + rewrite app_nth2 by (rewrite length_np_arange; lia).
      rewrite length_np_arange by lia.
      replace (Z.to_nat size + i - Z.to_nat (0 - - size))%nat with i by lia.
      rewrite nth_np_arange by lia. lia.
Qed.

Lemma step_values_layout_witness :
  length [-3; -2; -1; 1; 2; 3] = (2 * Z.to_nat 3)%nat
  /\ NoDup [-3; -2; -1; 1; 2; 3]
  /\ forall i : nat, (i < Z.to_nat 3)%nat ->
       nth i [-3; -2; -1; 1; 2; 3] 0 = Z.of_nat i - 3
       /\ nth (Z.to_nat 3 + i) [-3; -2; -1; 1; 2; 3] 0 = Z.of_nat i + 1.
Proof.
  apply (step_values_layout 4 3 counting_world
           (mkWorld (fun i => i) 0 [Constructed 4 3])
           (RandomWalk.mk 4 [-3; -2; -1; 1; 2; 3])).
  - unfold max_length. lia.
  - reflexivity.
Defined.

(** X2. A call that returns has drawn exactly two samples for every step,
    and has done nothing else to the world: the source is the same, the
    cursor is [2 * steps] further and the trace has grown by that many
    draws. *)
Theorem call_draws_two_samples_per_step
    (self : RandomWalk.t) (w w' : world) (r : RandomWalk.t * (list Z * list Z)) :
  RandomWalk.__call__ self w = (inr r, w') ->
  source w' = source w
  /\ cursor w' = (cursor w + 2 * Z.to_nat (RandomWalk.steps self))%nat
  /\ trace w'
     = trace w ++ repeat EntropyDraw (2 * Z.to_nat (RandomWalk.steps self)).
Proof.
  intros Hcall.
  destruct (call_shape _ _ _ _ Hcall) as (ds & ms & H).
  destruct H as (_ & _ & _ & _ & _ & _ & _ & Hw').
  subst w'. unfold advance. cbn [source cursor trace].
  split; [reflexivity|]. split; [lia|].
  f_equal. f_equal. lia.
Qed.

Lemma call_draws_two_samples_per_step_witness :
  source (advance counting_world 8) = source counting_world
  /\ cursor (advance counting_world 8)
     = (cursor counting_world + 2 * Z.to_nat 4)%nat
  /\ trace (advance counting_world 8)
     = trace counting_world ++ repeat EntropyDraw (2 * Z.to_nat 4).
Proof.
  apply (call_draws_two_samples_per_step
           (RandomWalk.mk 4 [-3; -2; -1; 1; 2; 3]) counting_world
           (advance counting_world 8)
           (RandomWalk.mk 4 [-3; -2; -1; 1; 2; 3],
            ([0; 2; 2; -1; -1], [0; 0; 3; 3; 1]))).
  reflexivity.
Defined.

(** X3. For a step count and a maximal magnitude within [max_length] of
    zero, a call
    on the constructed object returns a walk exactly when the step count is
    not negative and either the maximal magnitude is at least 1 or the step
    count is zero; otherwise it raises. *)
Theorem call_returns_iff
    (steps size : Z) (w0 w1 w : world) (self : RandomWalk.t) :
  - max_length < steps < max_length -> - max_length < size < max_length ->
  RandomWalk.__init__ steps size w0 = (inr self, w1) ->
  (exists r w', RandomWalk.__call__ self w = (inr r, w'))
  <-> 0 <= steps /\ (1 <= size \/ steps = 0).
Proof.
  intros Hsmall Hsize Hinit.
  rewrite init_spec in Hinit. inversion Hinit as [[Hself Hw1]]. clear Hinit.
  split.
  - intros (r & w' & Hcall). apply call_inv in Hcall. simpl in Hcall.
    destruct Hcall as [Hsteps [Hvals|Hzero]]; split; auto; try lia.
    left. destruct (Z.le_gt_cases 1 size) as [H|H]; [exact H|].
    exfalso. apply Hvals. apply step_values_empty. lia.
  - intros [Hsteps Hok].
    destruct (call_spec (RandomWalk.mk steps
                (np_arange (- size) 0 ++ np_arange 1 (size + 1))) w)
      as (ds & ms & _ & _ & _ & _ & _ & _ & Hcall).
    + simpl. machine_bounds. lia.
    + destruct Hok as [Hpos|Hzero]; [left|now right].
      apply step_values_nonempty. machine_bounds. lia.
    + eexists. eexists. exact Hcall.
Qed.

Lemma call_returns_iff_witness :
  (exists r w',
     RandomWalk.__call__ (RandomWalk.mk 5 []) counting_world = (inr r, w'))
  <-> 0 <= 5 /\ (1 <= 0 \/ 5 = 0).
Proof.
  apply (call_returns_iff 5 0 counting_world
           (mkWorld (fun i => i) 0 [Constructed 5 0]) counting_world
           (RandomWalk.mk 5 [])).
  - unfold max_length. lia.
  - unfold max_length. lia.
  - reflexivity.
Defined.

Section Sums.

(** Every magnitude goes to exactly one axis, so the two contributions of a
    prefix of the steps add up to the sum of its magnitudes. *)
Lemma contributions_add_up (directions : list Z) :
  forall (magnitudes : list Z) (i : nat),
    Forall (fun d => In d [0; 1]) directions ->
    length magnitudes = length directions ->
    zsum (firstn i (np_where (np_equal directions 0) magnitudes 0))
    + zsum (firstn i (np_where (np_equal directions 1) magnitudes 0))
    = zsum (firstn i magnitudes).
Proof.
  induction directions as [|d ds IH]; intros [|m ms] i Hd Hlen;
    simpl in Hlen; try discriminate.
  - destruct i; reflexivity.
  - destruct i as [|i]; [reflexivity|].
    inversion Hd as [|? ? Hd0 Hds]. subst.
    cbn [np_equal map np_where firstn zsum fold_right].
    fold (np_equal ds 0). fold (np_equal ds 1).
    specialize (IH ms i Hds ltac:(lia)). unfold zsum in IH.
    simpl in Hd0. destruct Hd0 as [Hd0|[Hd0|[]]]; subst d; simpl; lia.
Qed.

(** The two coordinates after [i] steps stay within [i] times the largest
    magnitude of where they started, taken together; and wrapping around
    only brings them closer. *)
Lemma coordinates_bounded (size : Z) (directions : list Z) :
  forall (magnitudes : list Z) (i : nat) (p q : Z),
    Forall (fun d => In d [0; 1]) directions ->
    Forall (fun m => Z.abs m <= size) magnitudes ->
    length magnitudes = length directions ->
    (i <= length directions)%nat ->
    Z.abs (nth i (p :: cumsum_from p
                          (np_where (np_equal directions 0) magnitudes 0)) 0)
    + Z.abs (nth i (q :: cumsum_from q
                            (np_where (np_equal directions 1) magnitudes 0)) 0)
    <= Z.abs p + Z.abs q + Z.of_nat i * size.
Proof.
  induction directions as [|d ds IH]; intros [|m ms] i p q Hd Hm Hlen Hi;
    simpl in Hlen, Hi; try discriminate.
  - assert (i = O) by lia. subst. simpl. lia.
  - destruct i as [|i]; [simpl; lia|].
    inversion Hd as [|? ? Hd0 Hds]. inversion Hm as [|? ? Hm0 Hms]. subst.
    cbn [np_equal map np_where cumsum_from].
    fold (np_equal ds 0). fold (np_equal ds 1).
    assert (Hn : forall (a : Z) (l : list Z), nth (S i) (a :: l) 0 = nth i l 0)
      by reflexivity.
    rewrite !Hn. clear Hn.
    set (cx := if d =? 0 then m else 0). set (cy := if d =? 1 then m else 0).
    specialize (IH ms i (wrap64 (p + cx)) (wrap64 (q + cy))
                  Hds Hms ltac:(lia) ltac:(lia)).
    pose proof (wrap64_abs (p + cx)) as Hx.
    pose proof (wrap64_abs (q + cy)) as Hy.
    rewrite Nat2Z.inj_succ, Z.mul_succ_l.
    assert (Hc : Z.abs cx + Z.abs cy <= size).
    { unfold cx, cy. simpl in Hd0.
      destruct Hd0 as [Hd0|[Hd0|[]]]; subst d; simpl; lia. }
    lia.
Qed.

End Sums.

(** X4. For a maximal magnitude within [max_length] of zero and
    [steps * size] not
    above [2^63 - 1], in every walk a call on the constructed object
    returns, the two coordinates at index [i] add up to the sum of the first
    [i] drawn magnitudes: no magnitude is lost or counted on both axes. *)
Theorem coordinates_add_up_to_magnitudes
    (steps size : Z) (w0 w1 w w' : world) (self self' : RandomWalk.t)
    (x y : list Z) :
  - max_length < size < max_length -> steps * size <= int64_max ->
  RandomWalk.__init__ steps size w0 = (inr self, w1) ->
  RandomWalk.__call__ self w = (inr (self', (x, y)), w') ->
  exists magnitudes : list Z,
    fst (np_random_choice (RandomWalk.step_values self) steps
           (advance w (Z.to_nat steps))) = inr magnitudes
    /\ forall i : nat, (i <= Z.to_nat steps)%nat ->
         nth i x 0 + nth i y 0 = zsum (firstn i magnitudes).
Proof.
  intros Hsize Hfit Hinit Hcall.
  rewrite init_spec in Hinit. inversion Hinit as [[Hself Hw1]]. clear Hinit.
  destruct (call_shape _ _ _ _ Hcall)
    as (ds & ms & Hlen_ds & Hlen_ms & Hds & Hms & _ & Hc2 & Hr & _).
  inversion Hr as [[Hself' Hx Hy]]. clear Hr.
  rewrite <- Hself in Hlen_ds, Hlen_ms, Hms, Hc2.
  simpl in Hlen_ds, Hlen_ms, Hms, Hc2.
  assert (Hlen : length ms = length ds) by lia.
  exists ms. split; [simpl; exact Hc2|].
  intros i Hi. destruct i as [|i]; [reflexivity|].
  assert (Hi' : (i < length ms)%nat) by lia.
  pose proof (nth_Forall_in _ _ i Hms Hi') as Hmi. simpl in Hmi.
  apply in_step_values_bounds in Hmi.
  assert (Hbound : Forall (fun m => Z.abs m <= size) ms).
  { eapply Forall_impl; [|exact Hms].
    intros m Hin. apply in_step_values_bounds in Hin. lia. }
  assert (Hstep : Z.abs 0 + Z.of_nat (S i) * size <= int64_max).
  { apply Z.le_trans with (steps * size); [|exact Hfit].
    simpl Z.abs. rewrite Z.add_0_l.
    apply Z.mul_le_mono_nonneg_r; lia. }
  unfold np_cumsum.
  rewrite !(nth_cumsum_exact size)
    by (try (apply np_where_bounded; [lia|exact Hbound]);
        try (rewrite length_np_where by exact Hlen; lia);
        exact Hstep).
  rewrite !Z.add_0_l. now apply contributions_add_up.
Qed.

Lemma coordinates_add_up_to_magnitudes_witness :
  exists magnitudes : list Z,
    fst (np_random_choice [-3; -2; -1; 1; 2; 3] 4
           (advance counting_world (Z.to_nat 4))) = inr magnitudes
    /\ forall i : nat, (i <= Z.to_nat 4)%nat ->
         nth i [0; 2; 2; -1; -1] 0 + nth i [0; 0; 3; 3; 1] 0
         = zsum (firstn i magnitudes).
Proof.
  apply (coordinates_add_up_to_magnitudes 4 3 counting_world
           (mkWorld (fun i => i) 0 [Constructed 4 3])
           counting_world (advance counting_world 8)
           (RandomWalk.mk 4 [-3; -2; -1; 1; 2; 3])
           (RandomWalk.mk 4 [-3; -2; -1; 1; 2; 3])).
  - unfold max_length. lia.
  - unfold int64_max. lia.
  - reflexivity.
  - reflexivity.
Defined.

(** X5. A walk cannot run away: at index [i] the distance from the origin,
    counted along the axes, is at most [i] times the maximal magnitude. *)
Theorem walk_stays_within_reach
    (steps size : Z) (w0 w1 w w' : world) (self self' : RandomWalk.t)
    (x y : list Z) (i : nat) :
  RandomWalk.__init__ steps size w0 = (inr self, w1) ->
  RandomWalk.__call__ self w = (inr (self', (x, y)), w') ->
  Z.of_nat i <= steps ->
  Z.abs (nth i x 0) + Z.abs (nth i y 0) <= Z.of_nat i * size.
Proof.
  intros Hinit Hcall Hi.
  rewrite init_spec in Hinit. inversion Hinit as [[Hself Hw1]]. clear Hinit.
  destruct (call_shape _ _ _ _ Hcall)
    as (ds & ms & Hlen_ds & Hlen_ms & Hds & Hms & _ & _ & Hr & _).
  inversion Hr as [[Hself' Hx Hy]]. clear Hr.
  rewrite <- Hself in Hlen_ds, Hlen_ms, Hms. simpl in Hlen_ds, Hlen_ms, Hms.
  assert (Hlen : length ms = length ds) by lia.
  unfold np_cumsum.
  assert (Hbound : Forall (fun m => Z.abs m <= size) ms).
  { eapply Forall_impl; [|exact Hms].
    intros m Hin. apply in_step_values_bounds in Hin. lia. }
  pose proof (coordinates_bounded size ds ms i 0 0 Hds Hbound Hlen
                ltac:(lia)) as H.
  change (Z.abs 0) with 0 in H. lia.
Qed.

Lemma walk_stays_within_reach_witness :
  Z.abs (nth 3 [0; 2; 2; -1; -1] 0) + Z.abs (nth 3 [0; 0; 3; 3; 1] 0)
  <= Z.of_nat 3 * 3.
Proof.
  apply (walk_stays_within_reach 4 3 counting_world
           (mkWorld (fun i => i) 0 [Constructed 4 3])
           counting_world (advance counting_world 8)
           (RandomWalk.mk 4 [-3; -2; -1; 1; 2; 3])
           (RandomWalk.mk 4 [-3; -2; -1; 1; 2; 3])).
  - reflexivity.
  - reflexivity.
  - lia.
Defined.


(** * Further properties of the batch *)

Section Pulls.

Variable self : RandomWalk.t.
Hypothesis steps_ok : 0 <= RandomWalk.steps self <= int64_max.
Hypothesis values_ok :
  RandomWalk.step_values self <> [] \/ RandomWalk.steps self = 0.

Local Abbreviation n := (Z.to_nat (RandomWalk.steps self)).

(** The first pull on a bar that has handed out nothing yet: no advance is
    reported, the walk is generated and yielded. *)
Lemma next_fresh_item (it : range_iter) (total count : nat) (w : world) :
  range_pos it < range_stop it ->
  exists x y,
    RandomWalk.__call__ self w = (inr (self, (x, y)), advance w (n + n))
    /\ next (Suspended self (mkTqdm it total count false)) w
       = (Yield (mkResult x y),
          Suspended self
            (mkTqdm (mkRange (range_pos it + 1) (range_stop it))
               total count true),
          advance w (n + n)).
Proof.
  intros Hlt.
  destruct (call_spec self w steps_ok values_ok)
    as (ds & ms & _ & _ & _ & _ & _ & _ & Hcall).
  do 2 eexists. split; [exact Hcall|].
  unfold next, resume, loop, tqdm_next, range_next.
  unfold bind at 1 2. cbn [bar_resumed bar_iterable bar_total bar_n ret].
  apply Z.ltb_lt in Hlt. rewrite Hlt. cbn [ret fst snd].
  unfold bind, on_raise. rewrite Hcall. reflexivity.
Qed.

(** A later pull with items left: the counter advances, then the next walk
    is generated and yielded. *)
Lemma next_resumed_item (it : range_iter) (total count : nat) (w : world) :
  range_pos it < range_stop it ->
  exists x y,
    RandomWalk.__call__ self (tell w [ProgressAdvance (S count)])
    = (inr (self, (x, y)),
       advance (tell w [ProgressAdvance (S count)]) (n + n))
    /\ next (Suspended self (mkTqdm it total count true)) w
       = (Yield (mkResult x y),
          Suspended self
            (mkTqdm (mkRange (range_pos it + 1) (range_stop it))
               total (S count) true),
          advance (tell w [ProgressAdvance (S count)]) (n + n)).
Proof.
  intros Hlt.
  destruct (call_spec self (tell w [ProgressAdvance (S count)])
              steps_ok values_ok)
    as (ds & ms & _ & _ & _ & _ & _ & _ & Hcall).
  do 2 eexists. split; [exact Hcall|].
  unfold next, resume, loop, tqdm_next, range_next.
  unfold bind at 1 2 3. unfold emit at 1.
  cbn [bar_resumed bar_iterable bar_total bar_n ret].
  apply Z.ltb_lt in Hlt. rewrite Hlt. cbn [ret fst snd].
  unfold bind, on_raise. fold (tell w [ProgressAdvance (S count)]).
  rewrite Hcall. reflexivity.
Qed.

(** A later pull with no item left: the counter advances, the bar closes and
    the iteration stops. *)
Lemma next_resumed_end (it : range_iter) (total count : nat) (w : world) :
  range_stop it <= range_pos it ->
  next (Suspended self (mkTqdm it total count true)) w
  = (StopIteration, Finished,
     tell w [ProgressAdvance (S count); ProgressClose]).
Proof.
  intros Hge.
  unfold next, resume, loop, tqdm_next, range_next.
  unfold bind at 1 2 3. unfold emit at 1.
  cbn [bar_resumed bar_iterable bar_total bar_n ret].
  apply Z.ltb_ge in Hge. rewrite Hge.
  unfold bind, emit, ret, tell. simpl.
  now rewrite <- app_assoc.
Qed.

(** The first pull on a bar whose range is empty: the bar closes. *)
Lemma next_fresh_end (it : range_iter) (total count : nat) (w : world) :
  range_stop it <= range_pos it ->
  next (Suspended self (mkTqdm it total count false)) w
  = (StopIteration, Finished, tell w [ProgressClose]).
Proof.
  intros Hge.
  unfold next, resume, loop, tqdm_next, range_next.
  unfold bind at 1 2.
  cbn [bar_resumed bar_iterable bar_total bar_n ret].
  apply Z.ltb_ge in Hge. rewrite Hge.
  unfold bind, emit, ret, tell. reflexivity.
Qed.

Lemma progress_events_app (t1 t2 : list event) :
  progress_events (t1 ++ t2) = progress_events t1 ++ progress_events t2.
Proof. unfold progress_events. apply filter_app. Qed.

Lemma progress_events_draws (k : nat) :
  progress_events (repeat EntropyDraw k) = [].
Proof. induction k as [|k IH]; [reflexivity|exact IH]. Qed.

(** A walk returned by a call has the shape its step count commands. *)
Lemma call_well_shaped (w w' : world) (self' : RandomWalk.t) (x y : list Z) :
  RandomWalk.__call__ self w = (inr (self', (x, y)), w') ->
  well_shaped (RandomWalk.steps self) (mkResult x y).
Proof.
  clear steps_ok values_ok. intros Hcall.
  destruct (call_inv _ _ _ _ Hcall) as [Hsteps _].
  destruct (call_shape _ _ _ _ Hcall)
    as (ds & ms & Hlen_ds & Hlen_ms & _ & _ & _ & _ & Hr & _).
  inversion Hr as [[Hself' Hx Hy]]. clear Hr.
  assert (Hlen : length ms = length ds) by lia.
  unfold well_shaped, np_cumsum. cbn [x_coords y_coords length nth].
  rewrite !length_cumsum_from, !length_np_where by exact Hlen.
  repeat split; try reflexivity; lia.
Qed.

(** Consuming a suspended generator whose bar has handed out items and has
    [k] items left: what is yielded and what happens to the world. *)
Lemma consume_resumed (k : nat) :
  forall (fuel : nat) (it : range_iter) (total count : nat) (w : world),
    Z.to_nat (range_stop it - range_pos it) = k ->
    (k < fuel)%nat ->
    exists rs w',
      consume fuel (Suspended self (mkTqdm it total count true)) w
      = (rs, Exhausted, w')
      /\ length rs = k
      /\ source w' = source w
      /\ cursor w' = (cursor w + k * (n + n))%nat
      /\ progress_events (trace w')
         = progress_events (trace w)
           ++ map ProgressAdvance (seq (S count) (S k)) ++ [ProgressClose]
      /\ Forall (well_shaped (RandomWalk.steps self)) rs
      /\ forall (j : nat) (r : Result),
           nth_error rs j = Some r ->
           fst (RandomWalk.__call__ self
                  (mkWorld (source w) (cursor w + j * (n + n)) []))
           = inr (self, (x_coords r, y_coords r)).
Proof.
  induction k as [|k IH]; intros fuel it total count w Hk Hfuel;
    (destruct fuel as [|fuel]; [lia|]).
  - exists [], (tell w [ProgressAdvance (S count); ProgressClose]).
    cbn [consume]. rewrite next_resumed_end by lia.
    split; [reflexivity|]. split; [reflexivity|].
    split; [reflexivity|]. split; [simpl; lia|].
    split; [unfold tell; cbn [trace]; now rewrite progress_events_app|].
    split; [constructor|].
    intros [|j] r Hr; discriminate.
  - destruct (next_resumed_item it total count w)
      as (x & y & Hcall & Hnext); [lia|].
    set (w1 := advance (tell w [ProgressAdvance (S count)]) (n + n)) in *.
    destruct (IH fuel (mkRange (range_pos it + 1) (range_stop it))
                total (S count) w1)
      as (rs & w' & Hrs & Hlen & Hsrc & Hcur & Hprog & Hshape & Hblock).
    { cbn [range_pos range_stop]. lia. }
    { lia. }
    exists (mkResult x y :: rs), w'.
    split; [cbn [consume]; now rewrite Hnext, Hrs|].
    split; [simpl; now rewrite Hlen|].
    split; [rewrite Hsrc; reflexivity|].
    split; [rewrite Hcur, Nat.mul_succ_l; unfold w1; simpl; lia|].
    split.
    { rewrite Hprog. unfold w1, advance, tell. cbn [trace].
      rewrite !progress_events_app, progress_events_draws, app_nil_r.
      rewrite <- app_assoc. reflexivity. }
    split.
    { constructor; [|exact Hshape]. eapply call_well_shaped. exact Hcall. }
    intros [|j] r Hr.
    + inversion Hr. subst r. cbn [x_coords y_coords].
      destruct (entropy_only_call self
                  (mkWorld (source w) (cursor w + 0 * (n + n)) [])
                  (tell w [ProgressAdvance (S count)])) as [Hfst _].
      { split; simpl; [reflexivity|lia]. }
      rewrite Hfst, Hcall. reflexivity.
    + specialize (Hblock j r Hr).
      replace (cursor w + S j * (n + n))%nat
        with (cursor w1 + j * (n + n))%nat
        by (unfold w1; simpl; lia).
      exact Hblock.
Qed.

End Pulls.

Section WholeBatch.

Variables total steps size : Z.
Hypothesis total_ok : total <= int64_max.
Hypothesis steps_ok : 0 <= steps <= int64_max.
Hypothesis size_ok : 1 <= size < arange_limit \/ steps = 0.

Local Abbreviation self0 :=
  (RandomWalk.mk steps (np_arange (- size) 0 ++ np_arange 1 (size + 1))).
Local Abbreviation n := (Z.to_nat steps).

Lemma self0_values_ok :
  RandomWalk.step_values self0 <> [] \/ RandomWalk.steps self0 = 0.
Proof.
  clear total_ok steps_ok.
  destruct size_ok as [H|H]; [left|now right].
  now apply step_values_nonempty.
Qed.

(** A whole batch, from the call of the generator function to exhaustion:
    what is yielded and what happens to the world. *)
Lemma consume_batch (w : world) (fuel : nat) :
  (Z.to_nat total < fuel)%nat ->
  exists rs w',
    consume fuel (use_randomwalk total steps size) w = (rs, Exhausted, w')
    /\ length rs = Z.to_nat total
    /\ source w' = source w
    /\ cursor w' = (cursor w + Z.to_nat total * (n + n))%nat
    /\ progress_events (trace w')
       = progress_events (trace w)
         ++ [ProgressOpen (Z.to_nat total)]
         ++ map ProgressAdvance (seq 1 (Z.to_nat total)) ++ [ProgressClose]
    /\ Forall (well_shaped steps) rs
    /\ forall (j : nat) (r : Result),
         nth_error rs j = Some r ->
         fst (RandomWalk.__call__ self0
                (mkWorld (source w) (cursor w + j * (n + n)) []))
         = inr (self0, (x_coords r, y_coords r)).
Proof.
  intros Hfuel. destruct fuel as [|fuel]; [lia|].
  cbn [consume]. unfold use_randomwalk.
  rewrite next_created by exact total_ok.
  fold (tell w [Constructed steps size; ProgressOpen (Z.to_nat total)]).
  set (w2 := tell w [Constructed steps size; ProgressOpen (Z.to_nat total)]).
  destruct (Z.le_gt_cases total 0) as [Hle|Hgt].
  - rewrite next_fresh_end by (simpl; lia).
    assert (HT : Z.to_nat total = O) by lia.
    exists [], (tell w2 [ProgressClose]).
    subst w2. rewrite HT.
    split; [reflexivity|]. split; [reflexivity|].
    split; [reflexivity|]. split; [simpl; lia|].
    split.
    { unfold tell. cbn [trace].
      rewrite !progress_events_app, <- app_assoc. reflexivity. }
    split; [constructor|].
    intros [|j] r Hr; discriminate.
  - destruct (next_fresh_item self0 steps_ok self0_values_ok
                (range total) (Z.to_nat total) 0 w2)
      as (x & y & Hcall & Hnext); [simpl; lia|].
    rewrite Hnext. cbn [RandomWalk.steps] in Hcall |- *.
    set (w3 := advance w2 (n + n)) in *.
    destruct (consume_resumed self0 steps_ok self0_values_ok
                (Z.to_nat total - 1) fuel
                (mkRange (range_pos (range total) + 1)
                   (range_stop (range total)))
                (Z.to_nat total) 0 w3)
      as (rs & w' & Hrs & Hlen & Hsrc & Hcur & Hprog & Hshape & Hblock).
    { simpl. lia. }
    { lia. }
    cbn [RandomWalk.steps] in Hcur, Hshape, Hblock.
    rewrite Hrs.
    exists (mkResult x y :: rs), w'.
    split; [reflexivity|].
    split; [simpl; rewrite Hlen; lia|].
    split; [rewrite Hsrc; reflexivity|].
    split.
    { rewrite Hcur. unfold w3, w2. simpl.
      replace (Z.to_nat total) with (S (Z.to_nat total - 1)) at 2 by lia.
      rewrite Nat.mul_succ_l. lia. }
    split.
    { rewrite Hprog. unfold w3, w2, advance, tell. cbn [trace].
      rewrite !progress_events_app, progress_events_draws, app_nil_r.
      replace (S (Z.to_nat total - 1)) with (Z.to_nat total) by lia.
      rewrite <- app_assoc. reflexivity. }
    split.
    { constructor; [|exact Hshape].
      apply (call_well_shaped self0 w2 w3 self0 x y Hcall). }
    intros [|j] r Hr.
    + inversion Hr. subst r. cbn [x_coords y_coords].
      destruct (entropy_only_call self0
                  (mkWorld (source w) (cursor w + 0 * (n + n)) []) w2)
        as [Hfst _].
      { split; simpl; [reflexivity|lia]. }
      rewrite Hfst, Hcall. reflexivity.
    + specialize (Hblock j r Hr).
      replace (cursor w + S j * (n + n))%nat
        with (cursor w3 + j * (n + n))%nat
        by (unfold w3, w2; simpl; lia).
      exact Hblock.
Qed.

End WholeBatch.

Section Domain.

Lemma valid_steps (steps : Z) :
  0 <= steps < max_length -> 0 <= steps <= int64_max.
Proof. machine_bounds. lia. Qed.

Lemma valid_size (steps size : Z) :
  - max_length < size < max_length -> 1 <= size \/ steps = 0 ->
  1 <= size < arange_limit \/ steps = 0.
Proof. machine_bounds. lia. Qed.

End Domain.

(** X6. For at most [2^63 - 1] walks, a step count and a maximal magnitude
    below [max_length], and a configuration that generates, a batch that
    runs to exhaustion draws two samples for every step of every walk and no
    more: the cursor of the source ends [total_walks * 2 * steps] cells
    further. *)
Theorem batch_entropy_cost
    (total steps size : Z) (w : world) (fuel : nat) :
  total <= int64_max -> 0 <= steps < max_length ->
  - max_length < size < max_length ->
  1 <= size \/ steps = 0 -> (Z.to_nat total < fuel)%nat ->
  exists (rs : list Result) (w' : world),
    consume fuel (use_randomwalk total steps size) w = (rs, Exhausted, w')
    /\ source w' = source w
    /\ cursor w' = (cursor w + Z.to_nat total * (2 * Z.to_nat steps))%nat.
Proof.
  intros Htotal Hsteps Hsmall Hsize Hfuel.
  destruct (consume_batch total steps size Htotal
              (valid_steps steps Hsteps)
              (valid_size steps size Hsmall Hsize) w fuel Hfuel)
    as (rs & w' & Hrs & _ & Hsrc & Hcur & _).
  exists rs, w'. split; [exact Hrs|]. split; [exact Hsrc|].
  rewrite Hcur. f_equal. f_equal. lia.
Qed.

Lemma batch_entropy_cost_witness :
  exists (rs : list Result) (w' : world),
    consume 3 (use_randomwalk 2 4 3) counting_world = (rs, Exhausted, w')
    /\ source w' = source counting_world
    /\ cursor w'
       = (cursor counting_world + Z.to_nat 2 * (2 * Z.to_nat 4))%nat.
Proof.
  apply (batch_entropy_cost 2 4 3 counting_world 3);
    unfold int64_max, max_length; lia.
Defined.

(** X7. Under the same bounds, over a batch that runs to exhaustion the
    progress bar is opened once with the number of walks as its total, its
    counter is advanced once after each walk, from 1 up to that total, and
    it is closed once, last. *)
Theorem batch_progress_report
    (total steps size : Z) (w : world) (fuel : nat) :
  total <= int64_max -> 0 <= steps < max_length ->
  - max_length < size < max_length ->
  1 <= size \/ steps = 0 -> (Z.to_nat total < fuel)%nat ->
  exists (rs : list Result) (w' : world),
    consume fuel (use_randomwalk total steps size) w = (rs, Exhausted, w')
    /\ progress_events (trace w')
       = progress_events (trace w)
         ++ [ProgressOpen (Z.to_nat total)]
         ++ map ProgressAdvance (seq 1 (Z.to_nat total)) ++ [ProgressClose].
Proof.
  intros Htotal Hsteps Hsmall Hsize Hfuel.
  destruct (consume_batch total steps size Htotal
              (valid_steps steps Hsteps)
              (valid_size steps size Hsmall Hsize) w fuel Hfuel)
    as (rs & w' & Hrs & _ & _ & _ & Hprog & _).
  exists rs, w'. split; [exact Hrs|exact Hprog].
Qed.

Lemma batch_progress_report_witness :
  exists (rs : list Result) (w' : world),
    consume 3 (use_randomwalk 2 4 3) counting_world = (rs, Exhausted, w')
    /\ progress_events (trace w')
       = progress_events (trace counting_world)
         ++ [ProgressOpen (Z.to_nat 2)]
         ++ map ProgressAdvance (seq 1 (Z.to_nat 2)) ++ [ProgressClose].
Proof.
  apply (batch_progress_report 2 4 3 counting_world 3);
    unfold int64_max, max_length; lia.
Defined.

(** X8. Under the same bounds, every walk a batch yields has
    [walk_step + 1] entries in each of its two coordinate arrays and starts
    at the origin, as in the example of the docstring of
    [use_randomwalk]. *)
Theorem batch_walks_are_well_shaped
    (total steps size : Z) (w : world) (fuel : nat) :
  total <= int64_max -> 0 <= steps < max_length ->
  - max_length < size < max_length ->
  1 <= size \/ steps = 0 -> (Z.to_nat total < fuel)%nat ->
  exists (rs : list Result) (w' : world),
    consume fuel (use_randomwalk total steps size) w = (rs, Exhausted, w')
    /\ Forall (well_shaped steps) rs.
Proof.
  intros Htotal Hsteps Hsmall Hsize Hfuel.
  destruct (consume_batch total steps size Htotal
              (valid_steps steps Hsteps)
              (valid_size steps size Hsmall Hsize) w fuel Hfuel)
    as (rs & w' & Hrs & _ & _ & _ & _ & Hshape & _).
  exists rs, w'. split; [exact Hrs|exact Hshape].
Qed.

Lemma batch_walks_are_well_shaped_witness :
  exists (rs : list Result) (w' : world),
    consume 3 (use_randomwalk 2 4 3) counting_world = (rs, Exhausted, w')
    /\ Forall (well_shaped 4) rs.
Proof.
  apply (batch_walks_are_well_shaped 2 4 3 counting_world 3);
    unfold int64_max, max_length; lia.
Defined.

(** X9. Under the same bounds, the walks of a batch are built from
    successive blocks of the random source that do not overlap: walk number [j], counted from 0, is the walk
    a single call on the constructed object returns when the cursor stands
    [j * 2 * steps] cells after the start of the batch. *)
Theorem batch_walks_use_successive_blocks
    (total steps size : Z) (w : world) (fuel : nat) :
  total <= int64_max -> 0 <= steps < max_length ->
  - max_length < size < max_length ->
  1 <= size \/ steps = 0 -> (Z.to_nat total < fuel)%nat ->
  exists (self : RandomWalk.t) (w1 : world) (rs : list Result) (w' : world),
    RandomWalk.__init__ steps size w = (inr self, w1)
    /\ consume fuel (use_randomwalk total steps size) w = (rs, Exhausted, w')
    /\ forall (j : nat) (r : Result),
         nth_error rs j = Some r ->
         fst (RandomWalk.__call__ self
                (mkWorld (source w)
                   (cursor w + j * (2 * Z.to_nat steps)) []))
         = inr (self, (x_coords r, y_coords r)).
Proof.
  intros Htotal Hsteps Hsmall Hsize Hfuel.
  destruct (consume_batch total steps size Htotal
              (valid_steps steps Hsteps)
              (valid_size steps size Hsmall Hsize) w fuel Hfuel)
    as (rs & w' & Hrs & _ & _ & _ & _ & _ & Hblock).
  do 2 eexists. exists rs, w'.
  split; [apply init_spec|]. split; [exact Hrs|].
  intros j r Hr. specialize (Hblock j r Hr).
  replace (2 * Z.to_nat steps)%nat with (Z.to_nat steps + Z.to_nat steps)%nat
    by lia.
  exact Hblock.
Qed.

Lemma batch_walks_use_successive_blocks_witness :
  exists (self : RandomWalk.t) (w1 : world) (rs : list Result) (w' : world),
    RandomWalk.__init__ 4 3 counting_world = (inr self, w1)
    /\ consume 3 (use_randomwalk 2 4 3) counting_world = (rs, Exhausted, w')
    /\ forall (j : nat) (r : Result),
         nth_error rs j = Some r ->
         fst (RandomWalk.__call__ self
                (mkWorld (source counting_world)
                   (cursor counting_world + j * (2 * Z.to_nat 4)) []))
         = inr (self, (x_coords r, y_coords r)).
Proof.
  apply (batch_walks_use_successive_blocks 2 4 3 counting_world 3);
    unfold int64_max, max_length; lia.
Defined.

Section ZeroSteps.

Lemma well_shaped_zero (r : Result) : well_shaped 0 r -> r = origin_walk.
Proof.
  destruct r as [x y]. unfold well_shaped. simpl.
  intros (Hx & Hy & Hx0 & Hy0).
  destruct x as [|x0 [|x1 x]]; try discriminate.
  destruct y as [|y0 [|y1 y]]; try discriminate.
  simpl in Hx0, Hy0. subst. reflexivity.
Qed.

Lemma all_origin (rs : list Result) :
  Forall (well_shaped 0) rs -> rs = repeat origin_walk (length rs).
Proof.
  induction 1 as [|r rs Hr _ IH]; [reflexivity|].
  simpl. rewrite <- IH. f_equal. now apply well_shaped_zero.
Qed.

End ZeroSteps.

(** X10. With a step count of zero, at most [2^63 - 1] walks and a maximal
    magnitude below [max_length], the sign of the maximal magnitude does not
    matter: the batch yields the origin walk [x = [0]], [y = [0]] once per
    requested walk, raises nothing and draws nothing. *)
Theorem zero_steps_batch
    (total size : Z) (w : world) (fuel : nat) :
  total <= int64_max -> - max_length < size < max_length ->
  (Z.to_nat total < fuel)%nat ->
  exists w' : world,
    consume fuel (use_randomwalk total 0 size) w
    = (repeat origin_walk (Z.to_nat total), Exhausted, w')
    /\ source w' = source w
    /\ cursor w' = cursor w.
Proof.
  intros Htotal Hsmall Hfuel.
  destruct (consume_batch total 0 size Htotal
              (valid_steps 0 ltac:(unfold max_length; lia))
              (or_intror eq_refl) w fuel Hfuel)
    as (rs & w' & Hrs & Hlen & Hsrc & Hcur & _ & Hshape & _).
  exists w'. rewrite Hrs.
  rewrite (all_origin rs Hshape), Hlen.
  split; [reflexivity|]. split; [exact Hsrc|].
  rewrite Hcur. simpl. lia.
Qed.

Lemma zero_steps_batch_witness :
  exists w' : world,
    consume 4 (use_randomwalk 3 0 (-2)) counting_world
    = (repeat origin_walk (Z.to_nat 3), Exhausted, w')
    /\ source w' = source counting_world
    /\ cursor w' = cursor counting_world.
Proof.
  apply (zero_steps_batch 3 (-2) counting_world 4);
    unfold int64_max, max_length; simpl; lia.
Defined.


Section Laziness.

Variable self : RandomWalk.t.
Hypothesis steps_ok : 0 <= RandomWalk.steps self <= int64_max.
Hypothesis values_ok :
  RandomWalk.step_values self <> [] \/ RandomWalk.steps self = 0.

Local Abbreviation n := (Z.to_nat (RandomWalk.steps self)).

(** [k] pulls on a suspended generator with at least [k] items left: each
    yields a walk and the generator is suspended again. *)
Lemma pulls_resumed (k : nat) :
  forall (it : range_iter) (total count : nat) (w : world),
    (k <= Z.to_nat (range_stop it - range_pos it))%nat ->
    exists rs w',
      pulls k (Suspended self (mkTqdm it total count true)) w
      = (map Yield rs,
         Suspended self
           (mkTqdm (mkRange (range_pos it + Z.of_nat k) (range_stop it))
              total (count + k) true),
         w')
      /\ length rs = k
      /\ source w' = source w
      /\ cursor w' = (cursor w + k * (n + n))%nat.
Proof.
  induction k as [|k IH]; intros it total count w Hk.
  - exists [], w. cbn [pulls map].
    rewrite Z.add_0_r, Nat.add_0_r. destruct it as [p s].
    repeat split. simpl. lia.
  - destruct (next_resumed_item self steps_ok values_ok it total count w)
      as (x & y & Hcall & Hnext); [lia|].
    set (w1 := advance (tell w [ProgressAdvance (S count)]) (n + n)) in *.
    destruct (IH (mkRange (range_pos it + 1) (range_stop it))
                total (S count) w1)
      as (rs & w' & Hrs & Hlen & Hsrc & Hcur).
    { cbn [range_pos range_stop]. lia. }
    exists (mkResult x y :: rs), w'.
    split; [|split; [|split]].
    + cbn [pulls]. rewrite Hnext, Hrs. cbn [range_pos range_stop map].
      replace (range_pos it + 1 + Z.of_nat k)
        with (range_pos it + Z.of_nat (S k)) by lia.
      replace (S count + k)%nat with (count + S k)%nat by lia.
      reflexivity.
    + simpl. now rewrite Hlen.
    + rewrite Hsrc. reflexivity.
    + rewrite Hcur, Nat.mul_succ_l. unfold w1. simpl. lia.
Qed.

End Laziness.

(** X11. The batch is lazy.  For at most [2^63 - 1] walks, a step count and
    a maximal magnitude below [max_length] and a configuration that
    generates: after [k] pulls, with [k] between 1 and the number of walks, exactly [k] walks have been yielded, the generator is
    suspended on the constructed object, the samples of these [k] walks and
    no others have been drawn, and the counter of the progress bar stands at
    [k - 1]: the bar learns of a walk when the next one is asked for. *)
Theorem pulls_are_lazy
    (total steps size : Z) (w : world) (k : nat) :
  total <= int64_max -> 0 <= steps < max_length ->
  - max_length < size < max_length ->
  1 <= size \/ steps = 0 ->
  (1 <= k)%nat -> (k <= Z.to_nat total)%nat ->
  exists (self : RandomWalk.t) (w1 : world) (rs : list Result)
         (bar : tqdm) (w' : world),
    RandomWalk.__init__ steps size w = (inr self, w1)
    /\ pulls k (use_randomwalk total steps size) w
       = (map Yield rs, Suspended self bar, w')
    /\ length rs = k
    /\ bar_n bar = (k - 1)%nat
    /\ source w' = source w
    /\ cursor w' = (cursor w + k * (2 * Z.to_nat steps))%nat.
Proof.
  intros Htotal Hsteps0 Hsmall Hsize Hk1 Hk2.
  pose proof (valid_steps steps Hsteps0) as Hsteps.
  destruct k as [|k]; [lia|].
  set (self := RandomWalk.mk steps
                 (np_arange (- size) 0 ++ np_arange 1 (size + 1))).
  assert (Hvals : RandomWalk.step_values self <> []
                  \/ RandomWalk.steps self = 0).
  { destruct Hsize as [H|H]; [left|now right].
    apply step_values_nonempty. machine_bounds. lia. }
  set (w2 := tell w [Constructed steps size; ProgressOpen (Z.to_nat total)]).
  destruct (next_fresh_item self Hsteps Hvals (range total)
              (Z.to_nat total) 0 w2)
    as (x & y & Hcall & Hnext); [simpl; lia|].
  cbn [RandomWalk.steps self] in Hcall, Hnext.
  set (w3 := advance w2 (Z.to_nat steps + Z.to_nat steps)) in *.
  destruct (pulls_resumed self Hsteps Hvals k
              (mkRange (range_pos (range total) + 1)
                 (range_stop (range total)))
              (Z.to_nat total) 0 w3)
    as (rs & w' & Hrs & Hlen & Hsrc & Hcur).
  { simpl. lia. }
  cbn [RandomWalk.steps self] in Hcur.
  exists self, (mkWorld (source w) (cursor w)
                  (trace w ++ [Constructed steps size])),
    (mkResult x y :: rs).
  eexists. exists w'.
  split; [apply init_spec|].
  split.
  { cbn [pulls]. unfold use_randomwalk. rewrite next_created by exact Htotal.
    fold (tell w [Constructed steps size; ProgressOpen (Z.to_nat total)]).
    fold self w2. rewrite Hnext, Hrs. reflexivity. }
  split; [simpl; now rewrite Hlen|].
  split; [simpl; lia|].
  split; [rewrite Hsrc; reflexivity|].
  rewrite Hcur, Nat.mul_succ_l. unfold w3, w2. simpl. lia.
Qed.

Lemma pulls_are_lazy_witness :
  exists (self : RandomWalk.t) (w1 : world) (rs : list Result)
         (bar : tqdm) (w' : world),
    RandomWalk.__init__ 4 3 counting_world = (inr self, w1)
    /\ pulls 2 (use_randomwalk 5 4 3) counting_world
       = (map Yield rs, Suspended self bar, w')
    /\ length rs = 2%nat
    /\ bar_n bar = (2 - 1)%nat
    /\ source w' = source counting_world
    /\ cursor w' = (cursor counting_world + 2 * (2 * Z.to_nat 4))%nat.
Proof.
  apply (pulls_are_lazy 5 4 3 counting_world 2);
    unfold int64_max, max_length; lia.
Defined.
